(** * The GitHub search widget of the kea documentation site

    A shallow embedding of [src/components/tutorials/github/index.js]: the
    kea logic with its three actions, four reducers, the
    [sortedRepositories] selector and the asynchronous [setUsername]
    listener, followed by the properties of that logic.

    The file has two parts: the definitions, in the order of the source,
    and then the lemmas and theorems. *)

From Stdlib Require Import ZArith NArith Sorted Permutation.
From stdpp Require Import base option list strings gmap.

Local Open Scope string_scope.
Local Open Scope Z_scope.

(** ** JavaScript values

    The values that flow through the logic are what [response.json()]
    produces, plus [undefined] (the result of reading a missing property)
    and the strings the code builds itself.  Numbers are kept as integers:
    the only arithmetic of the logic is the subtraction of two star counts,
    whose sign in double precision is the sign of the exact difference. *)

#[warnings="-register-all"]
Inductive jsval : Type :=
  | JUndefined
  | JNull
  | JBool (b : bool)
  | JNum (n : Z)
  | JStr (s : string)
  | JArr (items : list jsval)
  | JObj (fields : list (string * jsval)).

(** Errors a listener can end with, other than kea's own breakpoint. *)
Inductive js_error : Type :=
  | SyntaxError   (* response.json() on a body that is not JSON *)
  | TypeError     (* a property read on null or undefined *)
  | ReducerError. (* kea: a reducer returned undefined *)

(** Own property [k] of an object literal; [fields] is in insertion order. *)
Fixpoint own_property (k : string) (fields : list (string * jsval)) : option jsval :=
  match fields with
  | [] => None
  | (k', v) :: rest => if String.eqb k k' then Some v else own_property k rest
  end.

(** [v.k] for a property name [k] that no prototype defines (such as
    [message] and [stargazers_count]): reading it on [null] or
    [undefined] throws, on an object it gives the own property or
    [undefined], on every other value it gives [undefined]. *)
Definition get_property (v : jsval) (k : string) : js_error + jsval :=
  match v with
  | JUndefined | JNull => inl TypeError
  | JObj fields => inr (default JUndefined (own_property k fields))
  | _ => inr JUndefined
  end.

(** ** Actions and reducers (index.js, lines 9-44) *)

Inductive action : Type :=
  | setUsername (username : string)
  | setRepositories (repositories : jsval)
  | setFetchError (error : jsval).

Record values : Type := Values {
  username : string;
  repositories : jsval;
  isLoading : bool;
  error : jsval
}.

Definition username_reducer (state : string) (a : action) : string :=
  match a with
  | setUsername u => u
  | _ => state
  end.

Definition repositories_reducer (state : jsval) (a : action) : jsval :=
  match a with
  | setUsername _ => JArr []
  | setRepositories r => r
  | _ => state
  end.

Definition isLoading_reducer (state : bool) (a : action) : bool :=
  match a with
  | setUsername _ => true
  | setRepositories _ => false
  | setFetchError _ => false
  end.

Definition error_reducer (state : jsval) (a : action) : jsval :=
  match a with
  | setUsername _ => JNull
  | setFetchError e => e
  | _ => state
  end.

Definition reducers (s : values) (a : action) : values :=
  {| username := username_reducer (username s) a;
     repositories := repositories_reducer (repositories s) a;
     isLoading := isLoading_reducer (isLoading s) a;
     error := error_reducer (error s) a |}.

(** The defaults of the four reducers. *)
Definition defaults : values :=
  {| username := "keajs"; repositories := JArr []; isLoading := false; error := JNull |}.

(** ** The selector (index.js, lines 46-53)

    [Array.prototype.sort] is stable and, for a consistent comparator,
    returns the sorted arrangement; which comparisons it makes is left to
    the engine.  It is modelled as a stable insertion sort.  A comparator
    result is [None] when an operand of the subtraction is not a number:
    the coercions JavaScript would then apply are outside this model, and
    the sort gives no result. *)

Section ArraySort.
Context {A : Type}.
Variable comparefn : A → A → option Z.

(** [x] is placed before the first element it does not have to follow. *)
Fixpoint sort_insert (x : A) (sorted : list A) : option (list A) :=
  match sorted with
  | [] => Some [x]
  | y :: rest =>
      c ← comparefn x y;
      if c <=? 0 then Some (x :: y :: rest)
      else (y ::.) <$> sort_insert x rest
  end.

Fixpoint array_sort (l : list A) : option (list A) :=
  match l with
  | [] => Some []
  | x :: rest => sorted ← array_sort rest; sort_insert x sorted
  end.

End ArraySort.

(** [r.stargazers_count] as a number, for a repository record. *)
Definition stargazers_count (r : jsval) : option Z :=
  match get_property r "stargazers_count" with
  | inr (JNum n) => Some n
  | _ => None
  end.

(** [(a, b) => b.stargazers_count - a.stargazers_count] *)
Definition by_stars_desc (a b : jsval) : option Z :=
  sb ← stargazers_count b; sa ← stargazers_count a; Some (sb - sa).

(** The value of the selector for a [repositories] array. *)
Definition sortedRepositories (repos : list jsval) : option (list jsval) :=
  array_sort by_stars_desc repos.

(** The readout [sortedRepositories] of a state. *)
Definition sortedRepositories_value (s : values) : option (list jsval) :=
  match repositories s with
  | JArr items => sortedRepositories items
  | _ => None
  end.

(** *** The selector on the heap

    Arrays are mutable objects.  [[...repositories]] allocates a new array
    with the same elements and [.sort] reorders the array it is called on
    and returns it. *)

Abbreviation loc := positive.
Abbreviation heap := (gmap loc (list jsval)).

Definition spread (h : heap) (l : loc) : option (heap * loc) :=
  items ← h !! l;
  let copy := fresh (dom h) in
  Some (<[copy := items]> h, copy).

Definition sort_in_place (comparefn : jsval → jsval → option Z)
    (h : heap) (l : loc) : option (heap * loc) :=
  items ← h !! l;
  sorted ← array_sort comparefn items;
  Some (<[l := sorted]> h, l).

Definition sortedRepositories_on_heap (h : heap) (repos : loc) : option (heap * loc) :=
  '(h1, copy) ← spread h repos;
  sort_in_place by_stars_desc h1 copy.

(** What the selector would be without the copy. *)
Definition sort_without_copy (h : heap) (repos : loc) : option (heap * loc) :=
  sort_in_place by_stars_desc h repos.

(** ** The listener (index.js, lines 55-81) and its runtime

    Every call of [setUsername] runs the reducers and then starts one run
    of the asynchronous listener.  A run is suspended at each [await]; the
    environment resumes it by an event: time passing, the fetch settling,
    the body having been read. *)

(** Where a run of the listener is. *)
Inductive stage : Type :=
  | Debouncing (deadline : N)                  (* await breakpoint(300) *)
  | Fetching                                   (* await fetch(url) *)
  | Parsing (status : Z) (body : option jsval) (* await response.json() *)
  | Returned                                   (* ran to its end, or returned *)
  | Broken                                     (* ended by a breakpoint, which kea swallows *)
  | Rejected (e : js_error).                   (* ended by an exception nobody catches *)

Record listener_run : Type := ListenerRun {
  payload : string;      (* the username of the action *)
  breakCounter : nat;    (* the counter value this run was started with *)
  at_stage : stage
}.

Record widget : Type := Widget {
  store : values;              (* the reducers' state *)
  clock : N;                   (* milliseconds *)
  listenerContext : nat;       (* kea's counter of calls of this listener *)
  runs : list listener_run;    (* every run started so far, oldest first *)
  requests : list string       (* the urls passed to fetch, oldest first *)
}.

Definition API_URL : string := "https://api.github.com".

(** [`${API_URL}/users/${username}/repos?per_page=250`] *)
Definition repos_url (username : string) : string :=
  API_URL +:+ "/users/" +:+ username +:+ "/repos?per_page=250".

Definition debounce_ms : N := 300.

(** Modelled from the spec: kea's [breakpoint], which is not among the
    sources.  Each accepted call advances a generation counter, and a
    suspended run compares the value it captured with the current one:
    [breakpoint(ms)] waits [ms] milliseconds and then ends the run if a
    newer call was made, [breakpoint()] does the comparison at once.  An
    abandoned run is not aborted, it is only stopped at its next
    breakpoint. *)
Definition isBreakpoint (w : widget) (r : listener_run) : bool :=
  negb (Nat.eqb (breakCounter r) (listenerContext w)).

Definition with_store (s : values) (w : widget) : widget :=
  {| store := s; clock := clock w; listenerContext := listenerContext w;
     runs := runs w; requests := requests w |}.

Definition with_runs (rs : list listener_run) (w : widget) : widget :=
  {| store := store w; clock := clock w; listenerContext := listenerContext w;
     runs := rs; requests := requests w |}.

Definition with_stage (st : stage) (r : listener_run) : listener_run :=
  {| payload := payload r; breakCounter := breakCounter r; at_stage := st |}.

(** Run [i] moves to stage [st]. *)
Definition settle (i : nat) (st : stage) (w : widget) : widget :=
  with_runs (alter (with_stage st) i (runs w)) w.

(** The listener is entered: the counter advances and the new run waits
    for the end of its debounce window. *)
Definition start_listener (u : string) (w : widget) : widget :=
  let c := S (listenerContext w) in
  {| store := store w; clock := clock w; listenerContext := c;
     runs := runs w ++ [ {| payload := u; breakCounter := c;
                            at_stage := Debouncing (clock w + debounce_ms)%N |} ];
     requests := requests w |}.

(** The reducers run, then the listener of the action, if it has one. *)
Definition commit (a : action) (w : widget) : widget :=
  let w' := with_store (reducers (store w) a) w in
  match a with
  | setUsername u => start_listener u w'
  | _ => w'
  end.

(** Whether a reducer returns [undefined] for the action.  The username
    is a string and the body of a response is JSON, which has no
    [undefined]; what can be [undefined] is the [error] that line 78 reads
    from a body without [message]. *)
Definition returns_undefined (a : action) : bool :=
  match a with
  | setFetchError JUndefined => true
  | _ => false
  end.

(** An action is dispatched.  kea, which is not among the sources, throws
    when a reducer returns [undefined], before anything is stored. *)
Definition dispatch (a : action) (w : widget) : js_error + widget :=
  if returns_undefined a then inl ReducerError else inr (commit a w).

(** An action is dispatched by the component or by an event of the logic:
    nothing changes if the dispatch throws. *)
Definition dispatch_or_throw (a : action) (w : widget) : widget :=
  match dispatch a w with
  | inr w' => w'
  | inl _ => w
  end.

(** An action is dispatched as the last statement of run [i]: the run
    returns, or ends with what the dispatch throws. *)
Definition dispatch_and_return (i : nat) (a : action) (w : widget) : widget :=
  match dispatch a w with
  | inr w' => settle i Returned w'
  | inl e => settle i (Rejected e) w
  end.

(** [fetch(url)] is called. *)
Definition call_fetch (url : string) (w : widget) : widget :=
  {| store := store w; clock := clock w; listenerContext := listenerContext w;
     runs := runs w; requests := requests w ++ [url] |}.

(** Line 57 to 64: the timer of run [i] has fired. *)
Definition after_breakpoint_300 (i : nat) (w : widget) : widget :=
  match runs w !! i with
  | Some r =>
      match at_stage r with
      | Debouncing _ =>
          if isBreakpoint w r then settle i Broken w
          else settle i Fetching (call_fetch (repos_url (payload r)) w)
      | _ => w
      end
  | None => w
  end.

(** Lines 65-68: the fetch of run [i] has thrown [error]. *)
Definition fetch_rejected (i : nat) (message : string) (w : widget) : widget :=
  match runs w !! i with
  | Some r =>
      match at_stage r with
      | Fetching => dispatch_and_return i (setFetchError (JStr message)) w
      | _ => w
      end
  | None => w
  end.

(** Lines 64-73: the fetch of run [i] has given a response. *)
Definition fetch_resolved (i : nat) (status : Z) (body : option jsval)
    (w : widget) : widget :=
  match runs w !! i with
  | Some r =>
      match at_stage r with
      | Fetching =>
          if isBreakpoint w r then settle i Broken w
          else settle i (Parsing status body) w
      | _ => w
      end
  | None => w
  end.

(** Lines 73-79: [response.json()] of run [i] has settled; a body that is
    not JSON is [None]. *)
Definition json_settled (i : nat) (w : widget) : widget :=
  match runs w !! i with
  | Some r =>
      match at_stage r with
      | Parsing status body =>
          match body with
          | None => settle i (Rejected SyntaxError) w
          | Some json =>
              if status =? 200 then
                dispatch_and_return i (setRepositories json) w
              else
                match get_property json "message" with
                | inr m => dispatch_and_return i (setFetchError m) w
                | inl e => settle i (Rejected e) w
                end
          end
      | _ => w
      end
  | None => w
  end.

(** Whether the timer of run [i] is due. *)
Definition due (i : nat) (w : widget) : bool :=
  match runs w !! i with
  | Some r =>
      match at_stage r with
      | Debouncing deadline => (deadline <=? clock w)%N
      | _ => false
      end
  | None => false
  end.

Definition fire_if_due (w : widget) (i : nat) : widget :=
  if due i w then after_breakpoint_300 i w else w.

(** [ms] milliseconds pass; the timers that are due fire, oldest first. *)
Definition advance (ms : N) (w : widget) : widget :=
  {| store := store w; clock := (clock w + ms)%N;
     listenerContext := listenerContext w;
     runs := runs w; requests := requests w |}.

Definition elapse (ms : N) (w : widget) : widget :=
  foldl fire_if_due (advance ms w) (seq 0 (length (runs w))).

(** What can happen to the widget.  An event addressed to a run that is
    not waiting for it does not occur; the step function leaves the widget
    as it is then. *)
Inductive event : Type :=
  | Call (username : string)             (* setUsername(e.target.value) *)
  | Elapse (ms : N)
  | FetchRejects (i : nat) (message : string)
  | FetchResolves (i : nat) (status : Z) (body : option jsval)
  | JsonSettles (i : nat).

Definition step (w : widget) (e : event) : widget :=
  match e with
  | Call u => dispatch_or_throw (setUsername u) w
  | Elapse ms => elapse ms w
  | FetchRejects i message => fetch_rejected i message w
  | FetchResolves i status body => fetch_resolved i status body w
  | JsonSettles i => json_settled i w
  end.

Definition exec (trace : list event) (w : widget) : widget :=
  foldl step w trace.

(** The logic as built, before it is mounted. *)
Definition built : widget :=
  {| store := defaults; clock := 0%N; listenerContext := 0%nat;
     runs := []; requests := [] |}.

(** [afterMount] (lines 83-87). *)
Definition afterMount (w : widget) : widget :=
  dispatch_or_throw (setUsername (username (store w))) w.

Definition mounted : widget := afterMount built.

(** The states the widget can be in. *)
Definition reachable (w : widget) : Prop :=
  ∃ trace, w = exec trace mounted.

(** A run has been superseded when a newer call of [setUsername] was made. *)
Definition superseded (w : widget) (r : listener_run) : Prop :=
  breakCounter r ≠ listenerContext w.

(** The runs are numbered by the counter. *)
Definition numbered (w : widget) : Prop :=
  listenerContext w = length (runs w) ∧
  ∀ i r, runs w !! i = Some r → breakCounter r = S i.

(** The readouts the component renders (lines 100-117). *)
Definition has_results (s : values) : Prop :=
  ∃ x rest, repositories s = JArr (x :: rest).

Definition has_error (s : values) : Prop :=
  error s ≠ JNull ∧ error s ≠ JUndefined.

(** ** Vocabulary of the properties *)

(** Every element is a repository record: it has a numeric star count. *)
Definition repository_records (l : list jsval) : Prop :=
  Forall (λ r, is_Some (stargazers_count r)) l.

(** [a] has at least as many stars as [b]. *)
Definition at_least_as_starred (a b : jsval) : Prop :=
  ∃ x y, stargazers_count a = Some x ∧ stargazers_count b = Some y ∧ y ≤ x.

(** The elements of [l] that have [k] stars, in their order in [l]. *)
Definition with_stars (k : Z) (l : list jsval) : list jsval :=
  filter (λ r, stargazers_count r = Some k) l.

(** [out] is a stable arrangement of [l] by descending star count. *)
Definition stable_descending (l out : list jsval) : Prop :=
  out ≡ₚ l ∧
  StronglySorted at_least_as_starred out ∧
  ∀ k, with_stars k out = with_stars k l.

(** An action clears both the results and the error, whatever they were. *)
Definition clears_both (a : action) : Prop :=
  ∀ s, repositories (reducers s a) = JArr [] ∧ error (reducers s a) = JNull.

(** The events other than calls of [setUsername]. *)
Definition is_call (e : event) : bool :=
  match e with
  | Call _ => true
  | _ => false
  end.

Definition no_calls (evs : list event) : Prop :=
  Forall (λ e, is_call e = false) evs.

(** The time that passes during a list of events. *)
Fixpoint elapsed (evs : list event) : N :=
  match evs with
  | [] => 0%N
  | Elapse ms :: rest => (ms + elapsed rest)%N
  | _ :: rest => elapsed rest
  end.

(** What happens between a call and the next one, when the next one comes
    within the debounce window: anything but a call, in less than 300 ms. *)
Definition within_window (gap : list event) : Prop :=
  no_calls gap ∧ (elapsed gap < debounce_ms)%N.

(** A sequence of calls, each followed by what happens before the next. *)
Fixpoint burst (calls : list (string * list event)) : list event :=
  match calls with
  | [] => []
  | (u, gap) :: rest => (Call u :: gap ++ burst rest)%list
  end.

(** A run that is suspended at an [await]. *)
Definition awaiting (r : listener_run) : Prop :=
  match at_stage r with
  | Debouncing _ | Fetching | Parsing _ _ => True
  | _ => False
  end.

(** Only a suspended run is resumed; it keeps its identity, and never goes
    back to waiting for its debounce window. *)
Definition run_moves (r r' : listener_run) : Prop :=
  payload r' = payload r ∧ breakCounter r' = breakCounter r ∧
  (r' = r ∨ (awaiting r ∧ ∀ deadline, at_stage r' ≠ Debouncing deadline)).

Definition evolves (w w' : widget) : Prop :=
  listenerContext w' = listenerContext w ∧
  length (runs w') = length (runs w) ∧
  ∀ j r, runs w !! j = Some r → ∃ r', runs w' !! j = Some r' ∧ run_moves r r'.

(** The latest run waits for the end of its debounce window, which is at
    [deadline] and has not come; [made] are the requests made so far. *)
Definition pending (made : list string) (u : string) (deadline : N)
    (w : widget) : Prop :=
  numbered w ∧ requests w = made ∧ (clock w < deadline)%N ∧
  last (runs w) = Some {| payload := u; breakCounter := listenerContext w;
                          at_stage := Debouncing deadline |}.

(** The latest run, if any, is past its debounce window. *)
Definition fired (made : list string) (w : widget) : Prop :=
  numbered w ∧ requests w = made ∧
  ∀ r deadline, last (runs w) = Some r → at_stage r ≠ Debouncing deadline.

(** An event that completes a request: the fetch throwing, or the body of
    the response having been read. *)
Definition completion_of (e : event) : option nat :=
  match e with
  | FetchRejects i _ => Some i
  | JsonSettles i => Some i
  | _ => None
  end.

(** Every completion in the trace is that of the latest request at the
    time it occurs. *)
Fixpoint completions_current (trace : list event) (w : widget) : Prop :=
  match trace with
  | [] => True
  | e :: rest =>
      (∀ i, completion_of e = Some i → S i = listenerContext w) ∧
      completions_current rest (step w e)
  end.


(** ResultSet and ErrorMessage are not both non-empty, and both are empty
    as long as the latest run is suspended. *)
Definition exclusive (w : widget) : Prop :=
  numbered w ∧
  ¬ (has_results (store w) ∧ has_error (store w)) ∧
  ∀ r, last (runs w) = Some r → awaiting r →
       repositories (store w) = JArr [] ∧ error (store w) = JNull.

(** ** The component (index.js, lines 90-120)

    What [Github] renders, as data: the value of the input and the branch
    of the conditional of lines 100-117 with what that branch displays. *)

(** The conversion to a boolean that [?:] applies to its condition. *)
Definition truthy (v : jsval) : bool :=
  match v with
  | JUndefined | JNull => false
  | JBool b => b
  | JNum n => negb (n =? 0)
  | JStr s => negb (String.eqb s "")
  | JArr _ | JObj _ => true
  end.

(** One line of the list: the properties of [repo] that lines 106-111 read. *)
Record repo_row : Type := RepoRow {
  row_key : jsval;      (* repo.id *)
  row_href : jsval;     (* repo.html_url *)
  row_name : jsval;     (* repo.full_name *)
  row_stars : jsval;    (* repo.stargazers_count *)
  row_forks : jsval     (* repo.forks *)
}.

(** A property read that may throw. *)
Definition read (v : jsval) (k : string) : option jsval :=
  match get_property v k with
  | inr x => Some x
  | inl _ => None
  end.

Definition row_of (repo : jsval) : option repo_row :=
  id ← read repo "id";
  html_url ← read repo "html_url";
  full_name ← read repo "full_name";
  stars ← read repo "stargazers_count";
  forks ← read repo "forks";
  Some {| row_key := id; row_href := html_url; row_name := full_name;
          row_stars := stars; row_forks := forks |}.

Inductive github_body : Type :=
  | ShowLoading                       (* Loading... *)
  | ShowFound (count : nat) (username : string) (rows : list repo_row)
                                      (* Found {count} repositories for user {username}! *)
  | ShowError (error : jsval)         (* Error: {error} *)
  | ShowNoRepositories.               (* No repositories found *)

Record github_view : Type := GithubView {
  input_value : string;
  body : github_body
}.

(** [Github]: [None] when reading the values or rendering a row throws, or
    when the selector is outside the model. *)
Definition Github (s : values) : option github_view :=
  sorted ← sortedRepositories_value s;
  shown ← (if isLoading s then Some ShowLoading
           else if (0 <? length sorted)%nat then
             rows ← mapM row_of sorted;
             Some (ShowFound (length sorted) (username s) rows)
           else if truthy (error s) then Some (ShowError (error s))
           else Some ShowNoRepositories);
  Some {| input_value := username s; body := shown |}.

(** The usernames of the calls of [setUsername] in a trace, in order. *)
Fixpoint calls_of (trace : list event) : list string :=
  match trace with
  | [] => []
  | Call u :: rest => u :: calls_of rest
  | _ :: rest => calls_of rest
  end.

(** The events that are neither a call nor a completion: time passing and
    a response arriving. *)
Definition quiet (e : event) : bool :=
  match e with
  | Elapse _ | FetchResolves _ _ _ => true
  | _ => false
  end.

(** The usernames of the runs, oldest first. *)
Definition asked (w : widget) : list string := payload <$> runs w.

(** Every request made is accounted for by a run, in order, and the latest
    run has made none while it waits for its debounce window. *)
Definition accounted (w : widget) : Prop :=
  numbered w ∧
  requests w `sublist_of` (repos_url <$> asked w) ∧
  ∀ r deadline, last (runs w) = Some r → at_stage r = Debouncing deadline →
    (clock w < deadline)%N ∧
    requests w `sublist_of` (repos_url <$> removelast (asked w)).

(** Run [i] was superseded before its debounce window ended: it waits for
    the deadline or has been stopped there. *)
Definition abandoned (i : nat) (u : string) (deadline : N) (w : widget) : Prop :=
  numbered w ∧ S i ≠ listenerContext w ∧
  ∃ r, runs w !! i = Some r ∧ payload r = u ∧
       (at_stage r = Debouncing deadline ∨ at_stage r = Broken).

(** * Properties *)

(** ** The reducers *)

Lemma reducers_setUsername s u :
  reducers s (setUsername u) =
  {| username := u; repositories := JArr []; isLoading := true; error := JNull |}.
Proof. reflexivity. Qed.

Lemma reducers_setRepositories s r :
  reducers s (setRepositories r) =
  {| username := username s; repositories := r; isLoading := false; error := error s |}.
Proof. reflexivity. Qed.

Lemma reducers_setFetchError s e :
  reducers s (setFetchError e) =
  {| username := username s; repositories := repositories s;
     isLoading := false; error := e |}.
Proof. reflexivity. Qed.

Lemma setUsername_clears_both u : clears_both (setUsername u).
Proof. intros s. split; reflexivity. Qed.

Lemma clears_both_is_setUsername a : clears_both a → ∃ u, a = setUsername u.
Proof.
  intros Hclear. destruct a as [u | r | e].
  - by exists u.
  - (* the error of the state survives setRepositories *)
    destruct (Hclear (Values "" (JArr []) false (JStr "stale"))) as [_ Herr].
    discriminate Herr.
  - (* the repositories of the state survive setFetchError *)
    destruct (Hclear (Values "" (JArr [JNull]) false JNull)) as [Hrepos _].
    discriminate Hrepos.
Qed.

(** C10: [setRepositories] changes only [repositories] and [isLoading],
    [setFetchError] changes only [error] and [isLoading], and the actions
    that clear both [repositories] and [error] are exactly the
    [setUsername] actions. *)
Theorem reducers_frame :
  (∀ s r, let s' := reducers s (setRepositories r) in
     username s' = username s ∧ error s' = error s ∧
     repositories s' = r ∧ isLoading s' = false) ∧
  (∀ s e, let s' := reducers s (setFetchError e) in
     username s' = username s ∧ repositories s' = repositories s ∧
     error s' = e ∧ isLoading s' = false) ∧
  (∀ a, clears_both a ↔ ∃ u, a = setUsername u).
Proof.
  split; [| split].
  - intros s r. by rewrite reducers_setRepositories.
  - intros s e. by rewrite reducers_setFetchError.
  - intros a. split.
    + apply clears_both_is_setUsername.
    + intros [u ->]. apply setUsername_clears_both.
Qed.

(** ** The selector *)

Lemma by_stars_desc_records a b x y :
  stargazers_count a = Some x → stargazers_count b = Some y →
  by_stars_desc a b = Some (y - x).
Proof. intros Ha Hb. unfold by_stars_desc. by rewrite Hb, Ha. Qed.

Lemma with_stars_cons k r l :
  with_stars k (r :: l) =
  if decide (stargazers_count r = Some k) then r :: with_stars k l
  else with_stars k l.
Proof. unfold with_stars. by rewrite filter_cons. Qed.

(** Two records with different star counts can be exchanged without
    changing the order among the records of any one star count. *)
Lemma with_stars_swap k a b l :
  stargazers_count a ≠ stargazers_count b →
  with_stars k (a :: b :: l) = with_stars k (b :: a :: l).
Proof.
  intros Hne. rewrite !with_stars_cons.
  repeat case_decide; congruence.
Qed.

Lemma sort_insert_records x l :
  is_Some (stargazers_count x) → repository_records l →
  ∃ out, sort_insert by_stars_desc x l = Some out ∧
         out ≡ₚ x :: l ∧
         (∀ k, with_stars k out = with_stars k (x :: l)) ∧
         (StronglySorted at_least_as_starred l →
          StronglySorted at_least_as_starred out).
Proof.
  intros [sx Hx] Hl. induction Hl as [| y rest [sy Hy] Hrest IH].
  - exists [x]. repeat split; [done .. |].
    intros _. repeat constructor.
  - destruct IH as (ins & Hins & Hperm & Hstable & Hsorted).
    simpl. rewrite (by_stars_desc_records x y sx sy) by done. simpl.
    destruct (Z.leb_spec (sy - sx) 0) as [Hle | Hgt].
    + exists (x :: y :: rest). repeat split; [done .. |].
      intros Hs. constructor; [done |].
      assert (at_least_as_starred x y) as Hxy
        by (exists sx, sy; repeat split; [done .. | lia]).
      constructor; [done |].
      apply StronglySorted_inv in Hs as [_ Hall].
      eapply Forall_impl; [exact Hall |].
      intros z (sy' & sz & Hy' & Hz & Hzy).
      exists sx, sz. repeat split; [done .. |].
      rewrite Hy in Hy'. injection Hy' as <-. lia.
    + exists (y :: ins). rewrite Hins. simpl.
      split; [done |]. split; [| split].
      * rewrite Hperm. apply perm_swap.
      * intros k.
        rewrite (with_stars_swap k x y) by (rewrite Hx, Hy; intros [= ->]; lia).
        rewrite (with_stars_cons k y ins), (with_stars_cons k y (x :: rest)).
        by rewrite Hstable.
      * intros Hs. apply StronglySorted_inv in Hs as [Hs Hall].
        constructor; [by apply Hsorted |].
        rewrite Hperm. constructor; [| done].
        exists sy, sx. repeat split; [done .. | lia].
Qed.

Lemma array_sort_records l :
  repository_records l →
  ∃ out, array_sort by_stars_desc l = Some out ∧ stable_descending l out.
Proof.
  induction 1 as [| x rest Hx Hrest IH].
  - exists []. repeat split; [done | constructor].
  - destruct IH as (sorted & Hsort & Hperm & Hdesc & Hstable).
    assert (repository_records sorted) as Hrecs.
    { unfold repository_records. by rewrite Hperm. }
    destruct (sort_insert_records x sorted Hx Hrecs)
      as (out & Hout & Hperm' & Hstable' & Hdesc').
    exists out. simpl. rewrite Hsort. simpl. repeat split.
    + done.
    + by rewrite Hperm', Hperm.
    + by apply Hdesc'.
    + intros k. rewrite Hstable', !with_stars_cons, Hstable. done.
Qed.

(** C3: for every ResultSet of repository records, the empty and the
    one-element ones included, [sortedRepositories] gives a permutation of
    it in descending order of star count in which the records of equal
    star count keep their order. *)
Theorem sortedRepositories_stable_descending (repos : list jsval) :
  repository_records repos →
  ∃ sorted, sortedRepositories repos = Some sorted ∧
            stable_descending repos sorted.
Proof. apply array_sort_records. Qed.

Lemma sortedRepositories_stable_descending_witness :
  let repos := [JObj [("full_name", JStr "kea"); ("stargazers_count", JNum 5)];
                JObj [("full_name", JStr "kea-docs"); ("stargazers_count", JNum 10)]] in
  repository_records repos ∧
  ∃ sorted, sortedRepositories repos = Some sorted ∧ stable_descending repos sorted.
Proof.
  intros repos.
  assert (repository_records repos) as Hrecs
    by (repeat constructor; eexists; reflexivity).
  split; [exact Hrecs |].
  exact (sortedRepositories_stable_descending repos Hrecs).
Defined.

(** The empty and the one-element ResultSet need no comparison. *)
Lemma sortedRepositories_nil : sortedRepositories [] = Some [].
Proof. reflexivity. Qed.

Lemma sortedRepositories_singleton r : sortedRepositories [r] = Some [r].
Proof. reflexivity. Qed.

(** The second scenario of the spec: stars 5 and 10 come out as 10, 5. *)
Lemma sortedRepositories_scenario a b :
  stargazers_count a = Some 5 → stargazers_count b = Some 10 →
  sortedRepositories [a; b] = Some [b; a].
Proof.
  intros Ha Hb. unfold sortedRepositories. simpl.
  by rewrite (by_stars_desc_records a b 5 10).
Qed.

(** A list has only one stable descending arrangement, so the value of the
    selector does not depend on the sorting algorithm of the engine. *)
Lemma stable_descending_unique l out1 out2 :
  repository_records l →
  stable_descending l out1 → stable_descending l out2 → out1 = out2.
Proof.
  intros Hrecs (Hp1 & Hs1 & Hk1) (Hp2 & Hs2 & Hk2).
  assert (repository_records out1) as Hr1
    by (unfold repository_records; by rewrite Hp1).
  assert (out1 ≡ₚ out2) as Hperm by (by rewrite Hp1, Hp2).
  assert (∀ k, with_stars k out1 = with_stars k out2) as Hk
    by (intros k; by rewrite Hk1, Hk2).
  clear Hrecs Hp1 Hp2 Hk1 Hk2 l.
  revert out2 Hs2 Hperm Hk.
  induction Hs1 as [| x out1 Hs1 IH Hx]; intros out2 Hs2 Hperm Hk.
  - by apply Permutation_nil_l in Hperm.
  - destruct Hs2 as [| y out2 Hs2 Hy].
    { by apply Permutation_nil_r in Hperm. }
    apply Forall_cons in Hr1 as [[sx Hsx] Hr1].
    assert (is_Some (stargazers_count y)) as [sy Hsy].
    { assert (y ∈ x :: out1) as Hin by (rewrite Hperm; left).
      apply elem_of_cons in Hin as [-> | Hin]; [by eexists |].
      by apply (proj1 (Forall_forall _ _) Hr1). }
    assert (sx ≤ sy) as Hle1.
    { assert (x ∈ y :: out2) as Hin by (rewrite <- Hperm; left).
      apply elem_of_cons in Hin as [-> | Hin]; [naive_solver lia |].
      destruct (proj1 (Forall_forall _ _) Hy x Hin) as (a & b & Ha & Hb & Hab).
      naive_solver lia. }
    assert (sy ≤ sx) as Hle2.
    { assert (y ∈ x :: out1) as Hin by (rewrite Hperm; left).
      apply elem_of_cons in Hin as [-> | Hin]; [naive_solver lia |].
      destruct (proj1 (Forall_forall _ _) Hx y Hin) as (a & b & Ha & Hb & Hab).
      naive_solver lia. }
    assert (sy = sx) as -> by lia.
    assert (x = y) as <-.
    { specialize (Hk sx). rewrite !with_stars_cons in Hk.
      rewrite !decide_True in Hk by done. by injection Hk. }
    f_equal. apply IH; [done | done | by apply Permutation_cons_inv in Hperm |].
    intros k. specialize (Hk k). rewrite !with_stars_cons in Hk.
    case_decide; [by injection Hk | done].
Qed.

(** ** The selector on the heap *)

Lemma spread_fresh h l h1 copy :
  spread h l = Some (h1, copy) →
  h !! copy = None ∧ copy ≠ l ∧ h1 = <[copy := default [] (h !! l)]> h.
Proof.
  unfold spread. destruct (h !! l) as [items |] eqn:Hl; [| done].
  simpl. intros [= <- <-].
  assert (h !! fresh (dom h) = None) as Hfresh
    by (apply not_elem_of_dom, is_fresh).
  split; [done |]. split; [| done].
  intros Heq. rewrite Heq in Hfresh. congruence.
Qed.

(** C9: evaluating the selector leaves the stored [repositories] array as
    it was: the sort reorders a newly allocated copy, which is the array
    returned, and no array that existed before is written. *)
Theorem sortedRepositories_preserves_repositories
    (h : heap) (repos : loc) (items : list jsval) :
  h !! repos = Some items →
  repository_records items →
  ∃ h' out sorted,
    sortedRepositories_on_heap h repos = Some (h', out) ∧
    h' !! repos = Some items ∧
    out ≠ repos ∧ h !! out = None ∧
    sortedRepositories items = Some sorted ∧ h' !! out = Some sorted ∧
    ∀ l, l ≠ out → h' !! l = h !! l.
Proof.
  intros Hrepos Hrecs.
  destruct (sortedRepositories_stable_descending items Hrecs) as (sorted & Hsort & _).
  destruct (spread h repos) as [[h1 copy] |] eqn:Hspread; last first.
  { unfold spread in Hspread. by rewrite Hrepos in Hspread. }
  destruct (spread_fresh _ _ _ _ Hspread) as (Hfresh & Hne & ->).
  rewrite Hrepos in *. simpl in *.
  exists (<[copy := sorted]> h), copy, sorted.
  unfold sortedRepositories_on_heap, sort_in_place. rewrite Hspread. simpl.
  rewrite lookup_insert_eq. simpl.
  unfold sortedRepositories in Hsort. rewrite Hsort. simpl.
  rewrite insert_insert_eq.
  split; [done |]. split; [by rewrite lookup_insert_ne |].
  split; [done |]. split; [done |]. split; [done |].
  split; [by rewrite lookup_insert_eq |].
  intros l Hl. by rewrite lookup_insert_ne.
Qed.

Lemma sortedRepositories_preserves_repositories_witness :
  let a := JObj [("full_name", JStr "kea"); ("stargazers_count", JNum 5)] in
  let b := JObj [("full_name", JStr "kea-docs"); ("stargazers_count", JNum 10)] in
  let h : heap := {[ 1%positive := [a; b] ]} in
  h !! 1%positive = Some [a; b] ∧ repository_records [a; b] ∧
  ∃ h' out sorted,
    sortedRepositories_on_heap h 1%positive = Some (h', out) ∧
    h' !! 1%positive = Some [a; b] ∧
    out ≠ 1%positive ∧ h !! out = None ∧
    sortedRepositories [a; b] = Some sorted ∧ h' !! out = Some sorted ∧
    ∀ l, l ≠ out → h' !! l = h !! l.
Proof.
  intros a b h.
  assert (h !! 1%positive = Some [a; b]) as Hl by reflexivity.
  assert (repository_records [a; b]) as Hrecs
    by (repeat constructor; eexists; reflexivity).
  split; [exact Hl |]. split; [exact Hrecs |].
  exact (sortedRepositories_preserves_repositories h 1%positive [a; b] Hl Hrecs).
Defined.

(** Sorting the stored array itself would reorder it: the copy matters. *)
Lemma sort_without_copy_reorders :
  let a := JObj [("stargazers_count", JNum 5)] in
  let b := JObj [("stargazers_count", JNum 10)] in
  ∃ h', sort_without_copy {[ 1%positive := [a; b] ]} 1%positive = Some (h', 1%positive) ∧
        h' !! 1%positive = Some [b; a].
Proof. eexists. split; [reflexivity | reflexivity]. Qed.

(** ** The listener *)

Lemma settle_frame i st w :
  store (settle i st w) = store w ∧ clock (settle i st w) = clock w ∧
  listenerContext (settle i st w) = listenerContext w ∧
  requests (settle i st w) = requests w.
Proof. done. Qed.

Lemma settle_lookup i st w r :
  runs w !! i = Some r → runs (settle i st w) !! i = Some (with_stage st r).
Proof. intros Hi. simpl. by rewrite list_lookup_alter_eq, Hi. Qed.

Lemma settle_lookup_ne i j st w :
  i ≠ j → runs (settle i st w) !! j = runs w !! j.
Proof. intros Hne. simpl. by rewrite list_lookup_alter_ne. Qed.

Lemma isBreakpoint_superseded w r : isBreakpoint w r = true ↔ superseded w r.
Proof.
  unfold isBreakpoint, superseded.
  rewrite negb_true_iff, Nat.eqb_neq. done.
Qed.

Lemma isBreakpoint_current w r : isBreakpoint w r = false ↔ ¬ superseded w r.
Proof.
  unfold isBreakpoint, superseded.
  rewrite negb_false_iff, Nat.eqb_eq. destruct (decide (breakCounter r = listenerContext w)); naive_solver.
Qed.

(** C4: a call of [setUsername] at once sets the query, empties ResultSet,
    sets ErrorMessage to null and isLoading to true; the clock has not
    moved, no request has been made, and the run of the listener it
    started is at the beginning of its debounce window. *)
Theorem setUsername_resets_at_once (w : widget) (u : string) :
  let w' := step w (Call u) in
  store w' = {| username := u; repositories := JArr []; isLoading := true;
                error := JNull |} ∧
  clock w' = clock w ∧
  requests w' = requests w ∧
  runs w' = (runs w ++ [ {| payload := u; breakCounter := S (listenerContext w);
                            at_stage := Debouncing (clock w + 300)%N |} ])%list.
Proof. done. Qed.

(** Mounting the logic is such a call, for the default username. *)
Lemma mounted_store :
  store mounted = {| username := "keajs"; repositories := JArr [];
                     isLoading := true; error := JNull |}.
Proof. reflexivity. Qed.

(** C7: when the fetch of a request throws, ErrorMessage becomes the
    message of the failure and isLoading false; the username, the results
    and the list of requests made are as before (nothing is retried), the
    run has returned, and nothing resumes it afterwards. *)
Theorem transport_failure_is_terminal
    (w : widget) (i : nat) (r : listener_run) (message : string) :
  runs w !! i = Some r →
  at_stage r = Fetching →
  let w' := step w (FetchRejects i message) in
  store w' = {| username := username (store w);
                repositories := repositories (store w);
                isLoading := false; error := JStr message |} ∧
  requests w' = requests w ∧
  runs w' !! i = Some (with_stage Returned r) ∧
  (∀ j, j ≠ i → runs w' !! j = runs w !! j) ∧
  after_breakpoint_300 i w' = w' ∧
  (∀ message', step w' (FetchRejects i message') = w') ∧
  (∀ status body, step w' (FetchResolves i status body) = w') ∧
  step w' (JsonSettles i) = w'.
Proof.
  intros Hi Hst w'.
  assert (w' = settle i Returned (commit (setFetchError (JStr message)) w)) as Hw'.
  { unfold w'. simpl. unfold fetch_rejected. by rewrite Hi, Hst. }
  assert (runs w' !! i = Some (with_stage Returned r)) as Hi'.
  { rewrite Hw'. by apply settle_lookup. }
  split; [by rewrite Hw' |]. split; [by rewrite Hw' |]. split; [done |].
  split; [intros j Hj; rewrite Hw'; by rewrite settle_lookup_ne |].
  split; [unfold after_breakpoint_300; by rewrite Hi' |].
  split; [intros m; simpl; unfold fetch_rejected; by rewrite Hi' |].
  split; [intros s b; simpl; unfold fetch_resolved; by rewrite Hi' |].
  simpl. unfold json_settled. by rewrite Hi'.
Qed.

Lemma transport_failure_is_terminal_witness :
  let w := exec [Elapse 300] mounted in
  let r := {| payload := "keajs"; breakCounter := 1; at_stage := Fetching |} in
  runs w !! 0%nat = Some r ∧ at_stage r = Fetching ∧
  error (store (step w (FetchRejects 0 "Failed to fetch"))) = JStr "Failed to fetch".
Proof.
  intros w r.
  assert (runs w !! 0%nat = Some r) as Hi by reflexivity.
  assert (at_stage r = Fetching) as Hst by reflexivity.
  split; [exact Hi |]. split; [exact Hst |].
  destruct (transport_failure_is_terminal w 0 r "Failed to fetch" Hi Hst) as [Hstore _].
  rewrite Hstore. reflexivity.
Defined.

Lemma setFetchError_defined m :
  m ≠ JUndefined → returns_undefined (setFetchError m) = false.
Proof. by destruct m. Qed.

Lemma dispatch_and_return_defined i a w :
  returns_undefined a = false →
  dispatch_and_return i a w = settle i Returned (commit a w).
Proof. intros Hdef. unfold dispatch_and_return, dispatch. by rewrite Hdef. Qed.

Lemma dispatch_and_return_undefined i w :
  dispatch_and_return i (setFetchError JUndefined) w =
  settle i (Rejected ReducerError) w.
Proof. done. Qed.

(** Lines 71-79 for a run that passes the breakpoint. *)
Lemma current_response_settles
    (w : widget) (i : nat) (r : listener_run) (status : Z) (json : jsval) :
  runs w !! i = Some r →
  at_stage r = Fetching →
  ¬ superseded w r →
  let w' := exec [FetchResolves i status (Some json); JsonSettles i] w in
  (status = 200 →
     store w' = {| username := username (store w); repositories := json;
                   isLoading := false; error := error (store w) |} ∧
     runs w' !! i = Some (with_stage Returned r)) ∧
  (status ≠ 200 → ∀ m, get_property json "message" = inr m → m ≠ JUndefined →
     store w' = {| username := username (store w);
                   repositories := repositories (store w);
                   isLoading := false; error := m |} ∧
     runs w' !! i = Some (with_stage Returned r)) ∧
  (status ≠ 200 → get_property json "message" = inr JUndefined →
     store w' = store w ∧
     runs w' !! i = Some (with_stage (Rejected ReducerError) r)).
Proof.
  intros Hi Hst Hcur w'.
  apply isBreakpoint_current in Hcur.
  set (w1 := settle i (Parsing status (Some json)) w).
  assert (step w (FetchResolves i status (Some json)) = w1) as H1.
  { simpl. unfold fetch_resolved. by rewrite Hi, Hst, Hcur. }
  assert (runs w1 !! i = Some (with_stage (Parsing status (Some json)) r)) as Hi1
    by (by apply settle_lookup).
  assert (∀ st, runs (settle i st w1) !! i = Some (with_stage st r)) as Hsettle.
  { intros st. by rewrite (settle_lookup i st w1 _ Hi1). }
  unfold w', exec. simpl foldl. fold (step w (FetchResolves i status (Some json))).
  rewrite H1. unfold json_settled. rewrite Hi1. simpl at_stage.
  split; [| split].
  - intros ->. simpl. split; [done |].
    rewrite !list_lookup_alter_eq, Hi. done.
  - intros Hne m Hm Hdef. apply Z.eqb_neq in Hne. rewrite Hne, Hm.
    rewrite dispatch_and_return_defined by (by apply setFetchError_defined).
    simpl. split; [done |].
    rewrite !list_lookup_alter_eq, Hi. done.
  - intros Hne Hm. apply Z.eqb_neq in Hne. rewrite Hne, Hm.
    rewrite dispatch_and_return_undefined. simpl. split; [done |].
    rewrite !list_lookup_alter_eq, Hi. done.
Qed.

(** C6: when a response arrives for a request that has not been
    superseded, a status of 200 makes the parsed body the ResultSet and
    isLoading false; any other status makes the [message] that the parsed
    body provides the ErrorMessage and isLoading false. *)
Theorem response_of_current_request
    (w : widget) (i : nat) (r : listener_run) (status : Z) (json : jsval) :
  runs w !! i = Some r →
  at_stage r = Fetching →
  ¬ superseded w r →
  let w' := exec [FetchResolves i status (Some json); JsonSettles i] w in
  (status = 200 →
     repositories (store w') = json ∧ isLoading (store w') = false ∧
     error (store w') = error (store w) ∧
     username (store w') = username (store w)) ∧
  (status ≠ 200 → ∀ m, get_property json "message" = inr m → m ≠ JUndefined →
     error (store w') = m ∧ isLoading (store w') = false ∧
     repositories (store w') = repositories (store w) ∧
     username (store w') = username (store w)).
Proof.
  intros Hi Hst Hcur w'.
  destruct (current_response_settles w i r status json Hi Hst Hcur)
    as (Hok & Herr & _).
  split.
  - intros Heq. destruct (Hok Heq) as [Hstore _]. unfold w'. by rewrite Hstore.
  - intros Hne m Hm Hdef. destruct (Herr Hne m Hm Hdef) as [Hstore _].
    unfold w'. by rewrite Hstore.
Qed.

Lemma response_of_current_request_witness :
  let w := exec [Elapse 300] mounted in
  let r := {| payload := "keajs"; breakCounter := 1; at_stage := Fetching |} in
  let found := JArr [JObj [("full_name", JStr "kea"); ("stargazers_count", JNum 5)]] in
  let missing := JObj [("message", JStr "Not Found")] in
  runs w !! 0%nat = Some r ∧ at_stage r = Fetching ∧ ¬ superseded w r ∧
  repositories (store (exec [FetchResolves 0 200 (Some found); JsonSettles 0] w)) = found ∧
  error (store (exec [FetchResolves 0 404 (Some missing); JsonSettles 0] w))
    = JStr "Not Found".
Proof.
  intros w r found missing.
  assert (runs w !! 0%nat = Some r) as Hi by reflexivity.
  assert (at_stage r = Fetching) as Hst by reflexivity.
  assert (¬ superseded w r) as Hcur by (intros Hs; apply Hs; reflexivity).
  split; [exact Hi |]. split; [exact Hst |]. split; [exact Hcur |]. split.
  - destruct (response_of_current_request w 0 r 200 found Hi Hst Hcur) as [Hok _].
    exact (proj1 (Hok eq_refl)).
  - destruct (response_of_current_request w 0 r 404 missing Hi Hst Hcur) as [_ Herr].
    assert (404 ≠ 200) as Hne by lia.
    assert (JStr "Not Found" ≠ JUndefined) as Hdef by discriminate.
    exact (proj1 (Herr Hne (JStr "Not Found") eq_refl Hdef)).
Defined.

(** ** Superseded runs *)

(** The end of the debounce wait of a superseded run changes no state and
    makes no request. *)
Lemma superseded_debounce_end_discarded w i r :
  runs w !! i = Some r → superseded w r →
  store (after_breakpoint_300 i w) = store w ∧
  requests (after_breakpoint_300 i w) = requests w.
Proof.
  intros Hi Hsup. apply isBreakpoint_superseded in Hsup.
  unfold after_breakpoint_300. rewrite Hi.
  destruct (at_stage r); try done. by rewrite Hsup.
Qed.


(** C1, at the input where the code departs from it: the fetch for "a" is
    under way when "b" is typed, and then fails.  The run for "a" is
    superseded, yet its [catch] block dispatches [setFetchError] without
    passing a breakpoint: isLoading and ErrorMessage change while the
    request for "b" has not even been made. *)
Theorem superseded_transport_failure_mutates :
  let w := exec [Call "a"; Elapse 300; Call "b"] mounted in
  let w' := step w (FetchRejects 1 "Failed to fetch") in
  (∃ r, runs w !! 1%nat = Some r ∧ payload r = "a" ∧ at_stage r = Fetching ∧
        superseded w r) ∧
  store w = {| username := "b"; repositories := JArr []; isLoading := true;
               error := JNull |} ∧
  store w' = {| username := "b"; repositories := JArr []; isLoading := false;
                error := JStr "Failed to fetch" |} ∧
  requests w' = ["https://api.github.com/users/a/repos?per_page=250"].
Proof.
  intros w w'. split.
  - eexists. split; [reflexivity |]. split; [reflexivity |].
    split; [reflexivity |]. unfold superseded. simpl. lia.
  - split; [reflexivity |]. split; reflexivity.
Qed.

(** The same happens when a run is superseded while its body is being
    read: lines 73-79 are past the last breakpoint. *)
Lemma superseded_while_parsing_mutates :
  let found := JArr [JObj [("full_name", JStr "a/x"); ("stargazers_count", JNum 1)]] in
  let w := exec [Call "a"; Elapse 300; FetchResolves 1 200 (Some found); Call "b"]
             mounted in
  (∃ r, runs w !! 1%nat = Some r ∧ superseded w r) ∧
  store (step w (JsonSettles 1)) =
    {| username := "b"; repositories := found; isLoading := false; error := JNull |}.
Proof.
  intros found w. split; [| reflexivity].
  eexists. split; [reflexivity |]. unfold superseded. simpl. lia.
Qed.

(** C5, at the input where the code departs from it: the fetch for
    "keajs" fails after "kea" has been typed and the request for "kea"
    succeeds afterwards.  [setRepositories] leaves the error of the
    superseded run in place, and ResultSet and ErrorMessage are both
    non-empty in a reachable state. *)
Theorem results_and_error_together :
  let found := JArr [JObj [("full_name", JStr "kea/x"); ("stargazers_count", JNum 1)]] in
  let w := exec [Elapse 300; Call "kea"; Elapse 300;
                 FetchRejects 0 "Failed to fetch";
                 FetchResolves 1 200 (Some found); JsonSettles 1] mounted in
  reachable w ∧
  store w = {| username := "kea"; repositories := found; isLoading := false;
               error := JStr "Failed to fetch" |} ∧
  has_results (store w) ∧ has_error (store w).
Proof.
  intros found w. split; [by eexists |]. split; [reflexivity |]. split.
  - eexists _, _. reflexivity.
  - split; discriminate.
Qed.

(** ** Responses that cannot be read *)


(** So does an error response whose body is the JSON value null. *)
Lemma null_body_rejects_listener :
  let w := exec [Elapse 300; FetchResolves 0 500 (Some JNull); JsonSettles 0] mounted in
  runs w !! 0%nat = Some {| payload := "keajs"; breakCounter := 1;
                            at_stage := Rejected TypeError |} ∧
  error (store w) = JNull ∧ isLoading (store w) = true.
Proof. intros w. split; [reflexivity |]. split; reflexivity. Qed.






(** ** How the runs evolve *)

Lemma run_moves_refl r : run_moves r r.
Proof. split; [done |]. split; [done | by left]. Qed.

Lemma run_moves_trans r1 r2 r3 :
  run_moves r1 r2 → run_moves r2 r3 → run_moves r1 r3.
Proof.
  intros (Hp1 & Hb1 & H1) (Hp2 & Hb2 & H2).
  split; [congruence |]. split; [congruence |].
  destruct H2 as [-> | [Haw2 H2]]; [done |].
  destruct H1 as [<- | [Haw1 _]]; right; done.
Qed.

Lemma evolves_refl w : evolves w w.
Proof.
  split; [done |]. split; [done |].
  intros j r Hj. exists r. split; [done | apply run_moves_refl].
Qed.

Lemma evolves_trans w1 w2 w3 : evolves w1 w2 → evolves w2 w3 → evolves w1 w3.
Proof.
  intros (Hc1 & Hl1 & H1) (Hc2 & Hl2 & H2).
  split; [congruence |]. split; [congruence |].
  intros j r Hj. destruct (H1 j r Hj) as (r2 & Hj2 & Hm1).
  destruct (H2 j r2 Hj2) as (r3 & Hj3 & Hm2).
  exists r3. split; [done | by eapply run_moves_trans].
Qed.

Lemma evolves_same_runs w w' :
  listenerContext w' = listenerContext w → runs w' = runs w → evolves w w'.
Proof.
  intros Hc Hr. split; [done |]. split; [by rewrite Hr |].
  intros j r Hj. exists r. rewrite Hr. split; [done | apply run_moves_refl].
Qed.

Lemma evolves_settle i st w r :
  runs w !! i = Some r → awaiting r → (∀ deadline, st ≠ Debouncing deadline) →
  evolves w (settle i st w).
Proof.
  intros Hi Haw Hst. split; [done |]. split; [simpl; by rewrite length_alter |].
  intros j r' Hj. destruct (decide (i = j)) as [<- | Hne].
  - exists (with_stage st r). split; [by apply settle_lookup |].
    assert (r' = r) as -> by congruence.
    split; [done |]. split; [done |]. right. split; [done |]. apply Hst.
  - exists r'. split; [by rewrite settle_lookup_ne | apply run_moves_refl].
Qed.

Lemma evolves_after_breakpoint_300 i w : evolves w (after_breakpoint_300 i w).
Proof.
  unfold after_breakpoint_300.
  destruct (runs w !! i) as [r |] eqn:Hi; [| apply evolves_refl].
  destruct (at_stage r) eqn:Hst; try apply evolves_refl.
  assert (awaiting r) as Haw by (unfold awaiting; by rewrite Hst).
  destruct (isBreakpoint w r).
  - by apply (evolves_settle i Broken w r).
  - eapply evolves_trans; [| by apply (evolves_settle i Fetching _ r)].
    by apply evolves_same_runs.
Qed.

(** A dispatch from a listener stores what the reducers return and the
    run returns, or it throws and nothing is stored. *)
Lemma dispatch_and_return_cases i a w :
  (∀ u, a ≠ setUsername u) →
  dispatch_and_return i a w =
    settle i Returned (with_store (reducers (store w) a) w) ∨
  dispatch_and_return i a w = settle i (Rejected ReducerError) w.
Proof.
  intros Hact. destruct a as [u | json | e].
  - by destruct (Hact u).
  - by left.
  - destruct e; (by left) || (by right).
Qed.

Lemma evolves_dispatch_and_return i a w r :
  runs w !! i = Some r → awaiting r → (∀ u, a ≠ setUsername u) →
  evolves w (dispatch_and_return i a w).
Proof.
  intros Hi Haw Hact.
  destruct (dispatch_and_return_cases i a w Hact) as [-> | ->].
  - eapply evolves_trans; [| by apply (evolves_settle i Returned _ r)].
    by apply evolves_same_runs.
  - by apply (evolves_settle i _ w r).
Qed.

Lemma evolves_fetch_rejected i message w : evolves w (fetch_rejected i message w).
Proof.
  unfold fetch_rejected.
  destruct (runs w !! i) as [r |] eqn:Hi; [| apply evolves_refl].
  destruct (at_stage r) eqn:Hst; try apply evolves_refl.
  assert (awaiting r) as Haw by (unfold awaiting; by rewrite Hst).
  by apply (evolves_dispatch_and_return i _ w r).
Qed.

Lemma evolves_fetch_resolved i status body w :
  evolves w (fetch_resolved i status body w).
Proof.
  unfold fetch_resolved.
  destruct (runs w !! i) as [r |] eqn:Hi; [| apply evolves_refl].
  destruct (at_stage r) eqn:Hst; try apply evolves_refl.
  assert (awaiting r) as Haw by (unfold awaiting; by rewrite Hst).
  destruct (isBreakpoint w r); by apply (evolves_settle i _ w r).
Qed.

Lemma evolves_json_settled i w : evolves w (json_settled i w).
Proof.
  unfold json_settled.
  destruct (runs w !! i) as [r |] eqn:Hi; [| apply evolves_refl].
  destruct (at_stage r) as [| | status body | | |] eqn:Hst; try apply evolves_refl.
  assert (awaiting r) as Haw by (unfold awaiting; by rewrite Hst).
  destruct body as [json |]; [| by apply (evolves_settle i _ w r)].
  destruct (status =? 200).
  - by apply (evolves_dispatch_and_return i _ w r).
  - destruct (get_property json "message").
    + by apply (evolves_settle i _ w r).
    + by apply (evolves_dispatch_and_return i _ w r).
Qed.

Lemma evolves_fire_if_due w i : evolves w (fire_if_due w i).
Proof.
  unfold fire_if_due. destruct (due i w); [| apply evolves_refl].
  apply evolves_after_breakpoint_300.
Qed.

Lemma evolves_fire_all indices w : evolves w (foldl fire_if_due w indices).
Proof.
  revert w. induction indices as [| i indices IH]; intros w; [apply evolves_refl |].
  simpl. eapply evolves_trans; [apply evolves_fire_if_due | apply IH].
Qed.

Lemma evolves_elapse ms w : evolves w (elapse ms w).
Proof.
  unfold elapse. eapply evolves_trans; [| apply evolves_fire_all].
  by apply evolves_same_runs.
Qed.

Lemma evolves_step w e : is_call e = false → evolves w (step w e).
Proof.
  destruct e; [done | intros _ ..]; simpl.
  - apply evolves_elapse.
  - apply evolves_fetch_rejected.
  - apply evolves_fetch_resolved.
  - apply evolves_json_settled.
Qed.

Lemma evolves_numbered w w' : numbered w → evolves w w' → numbered w'.
Proof.
  intros [Hc Hidx] (Hc' & Hlen & Hruns). split; [congruence |].
  intros i r' Hi.
  assert (is_Some (runs w !! i)) as [r Hr].
  { apply lookup_lt_is_Some. rewrite <- Hlen. by eapply lookup_lt_Some. }
  destruct (Hruns i r Hr) as (r'' & Hi'' & _ & Hb & _).
  assert (r'' = r') as -> by congruence.
  rewrite Hb. by apply Hidx.
Qed.

Lemma evolves_last w w' r' :
  evolves w w' → last (runs w') = Some r' →
  ∃ r, last (runs w) = Some r ∧ run_moves r r'.
Proof.
  intros (_ & Hlen & Hruns). rewrite !last_lookup, Hlen. intros Hlast.
  assert (is_Some (runs w !! pred (length (runs w)))) as [r Hr].
  { apply lookup_lt_is_Some. apply lookup_lt_Some in Hlast. lia. }
  destruct (Hruns _ r Hr) as (r'' & Hi'' & Hm).
  assert (r'' = r') as -> by congruence. by exists r.
Qed.

Lemma numbered_built : numbered built.
Proof. split; [done |]. by intros i r Hi. Qed.

Lemma numbered_call w u : numbered w → numbered (step w (Call u)).
Proof.
  intros [Hc Hidx]. split.
  - simpl. rewrite length_app. simpl. lia.
  - intros i r. simpl. intros Hi.
    apply lookup_snoc_Some in Hi as [[Hlt Hi] | [-> <-]].
    + by apply Hidx.
    + simpl. by rewrite Hc.
Qed.

Lemma numbered_step w e : numbered w → numbered (step w e).
Proof.
  intros Hn. destruct (is_call e) eqn:He.
  - destruct e; try done. by apply numbered_call.
  - eapply evolves_numbered; [done | by apply evolves_step].
Qed.

Lemma numbered_exec trace w : numbered w → numbered (exec trace w).
Proof.
  revert w. induction trace as [| e trace IH]; intros w Hn; [done |].
  apply IH. by apply numbered_step.
Qed.

Lemma reachable_numbered w : reachable w → numbered w.
Proof.
  intros [trace ->]. apply numbered_exec.
  apply (numbered_call built "keajs"), numbered_built.
Qed.

(** ** Time and requests *)

Lemma dispatch_and_return_frame i a w :
  (∀ u, a ≠ setUsername u) →
  let w' := dispatch_and_return i a w in
  clock w' = clock w ∧ requests w' = requests w ∧
  username (store w') = username (store w) ∧
  ∀ j, i ≠ j → runs w' !! j = runs w !! j.
Proof.
  intros Hact w'. unfold w'.
  destruct (dispatch_and_return_cases i a w Hact) as [-> | ->].
  - split; [done |]. split; [done |].
    split; [destruct a as [u | |]; [by destruct (Hact u) | done ..] |].
    intros j Hj. by rewrite settle_lookup_ne.
  - split; [done |]. split; [done |]. split; [done |].
    intros j Hj. by rewrite settle_lookup_ne.
Qed.

(** What is not an [Elapse] moves neither the clock nor the list of
    requests, and leaves a run that waits for its debounce window alone. *)
Lemma network_event_frame w e :
  is_call e = false → (∀ ms, e ≠ Elapse ms) →
  clock (step w e) = clock w ∧ requests (step w e) = requests w ∧
  ∀ j r deadline, runs w !! j = Some r → at_stage r = Debouncing deadline →
                  runs (step w e) !! j = Some r.
Proof.
  intros Hcall Hne. destruct e as [| ms | i m | i status body | i]; try done.
  - by destruct (Hne ms).
  - simpl. unfold fetch_rejected.
    destruct (runs w !! i) as [r |] eqn:Hi; [| done].
    destruct (at_stage r) eqn:Hst; try done.
    destruct (dispatch_and_return_frame i (setFetchError (JStr m)) w)
      as (Hclock & Hreq & _ & Hother); [done |].
    split; [done |]. split; [done |]. intros j r' deadline Hj Hst'.
    rewrite Hother; [done | congruence].
  - simpl. unfold fetch_resolved.
    destruct (runs w !! i) as [r |] eqn:Hi; [| done].
    destruct (at_stage r) eqn:Hst; try done.
    destruct (isBreakpoint w r); (split; [done |]; split; [done |]);
      intros j r' deadline Hj Hst'; (rewrite settle_lookup_ne; [done | congruence]).
  - simpl. unfold json_settled.
    destruct (runs w !! i) as [r |] eqn:Hi; [| done].
    destruct (at_stage r) as [| | status body | | |] eqn:Hst; try done.
    assert (∀ st w1, runs w1 = runs w →
      ∀ j r' deadline, runs w !! j = Some r' → at_stage r' = Debouncing deadline →
                       runs (settle i st w1) !! j = Some r') as Hother.
    { intros st w1 Hw1 j r' deadline Hj Hst'.
      rewrite settle_lookup_ne; [by rewrite Hw1 | congruence]. }
    assert (∀ a, (∀ u, a ≠ setUsername u) →
      clock (dispatch_and_return i a w) = clock w ∧
      requests (dispatch_and_return i a w) = requests w ∧
      ∀ j r' deadline, runs w !! j = Some r' → at_stage r' = Debouncing deadline →
                       runs (dispatch_and_return i a w) !! j = Some r') as Hdisp.
    { intros a Hact.
      destruct (dispatch_and_return_frame i a w Hact) as (Hclock & Hreq & _ & Hruns).
      split; [done |]. split; [done |]. intros j r' deadline Hj Hst'.
      rewrite Hruns; [done | congruence]. }
    destruct body as [json |];
      [| split; [done |]; split; [done |]; by apply Hother].
    destruct (status =? 200); [by apply Hdisp |].
    destruct (get_property json "message");
      [split; [done |]; split; [done |]; by apply Hother | by apply Hdisp].
Qed.

Lemma fire_if_due_frame w i :
  store (fire_if_due w i) = store w ∧ clock (fire_if_due w i) = clock w.
Proof.
  unfold fire_if_due. destruct (due i w); [| done].
  unfold after_breakpoint_300.
  destruct (runs w !! i) as [r |]; [| done].
  destruct (at_stage r); try done. by destruct (isBreakpoint w r).
Qed.

Lemma fire_all_frame indices w :
  store (foldl fire_if_due w indices) = store w ∧
  clock (foldl fire_if_due w indices) = clock w.
Proof.
  revert w. induction indices as [| i indices IH]; intros w; [done |].
  simpl. destruct (IH (fire_if_due w i)) as [-> ->]. apply fire_if_due_frame.
Qed.

Lemma elapse_frame ms w :
  store (elapse ms w) = store w ∧ clock (elapse ms w) = (clock w + ms)%N.
Proof. unfold elapse. by destruct (fire_all_frame (seq 0 (length (runs w))) (advance ms w)) as [-> ->]. Qed.

Lemma clock_step w e : clock (step w e) = (clock w + elapsed [e])%N.
Proof.
  destruct e as [u | ms | i m | i status body | i]; simpl elapsed.
  - simpl. lia.
  - simpl step. destruct (elapse_frame ms w) as [_ ->]. lia.
  - destruct (network_event_frame w (FetchRejects i m)) as [-> _]; [done .. | lia].
  - destruct (network_event_frame w (FetchResolves i status body)) as [-> _];
      [done .. | lia].
  - destruct (network_event_frame w (JsonSettles i)) as [-> _]; [done .. | lia].
Qed.

(** The timer of a superseded run makes no request and touches no other
    run. *)
Lemma fire_superseded w i :
  numbered w → S i ≠ listenerContext w →
  requests (fire_if_due w i) = requests w ∧
  ∀ j, j ≠ i → runs (fire_if_due w i) !! j = runs w !! j.
Proof.
  intros [_ Hidx] Hold. unfold fire_if_due. destruct (due i w); [| done].
  unfold after_breakpoint_300.
  destruct (runs w !! i) as [r |] eqn:Hi; [| done].
  destruct (at_stage r); try done.
  assert (isBreakpoint w r = true) as ->.
  { apply isBreakpoint_superseded. unfold superseded. by rewrite (Hidx i r Hi). }
  split; [done |]. intros j Hj. by rewrite settle_lookup_ne.
Qed.

Lemma fire_all_superseded (n : nat) w :
  numbered w → (n < listenerContext w)%nat →
  let w' := foldl fire_if_due w (seq 0 n) in
  numbered w' ∧ listenerContext w' = listenerContext w ∧
  requests w' = requests w ∧
  ∀ j, (n ≤ j)%nat → runs w' !! j = runs w !! j.
Proof.
  intros Hn. induction n as [| n IH]; intros Hlt; [done |].
  rewrite seq_S, foldl_snoc. simpl.
  destruct IH as (Hn' & Hc & Hreq & Hruns); [lia |].
  set (w1 := foldl fire_if_due w (seq 0 n)) in *.
  destruct (fire_superseded w1 n Hn') as [Hreq' Hruns']; [lia |].
  split; [eapply evolves_numbered; [exact Hn' | apply evolves_fire_if_due] |].
  split; [by destruct (evolves_fire_if_due w1 n) as (-> & _) |].
  split; [congruence |].
  intros j Hj. rewrite Hruns' by lia. apply Hruns. lia.
Qed.

(** The timers of all runs but the latest are those of superseded runs. *)
Lemma elapse_latest ms w n :
  numbered w → length (runs w) = S n →
  ∃ w1, elapse ms w = fire_if_due w1 n ∧
        numbered w1 ∧ listenerContext w1 = listenerContext w ∧
        clock w1 = (clock w + ms)%N ∧ requests w1 = requests w ∧
        runs w1 !! n = runs w !! n ∧ length (runs w1) = length (runs w).
Proof.
  intros Hn Hlen. exists (foldl fire_if_due (advance ms w) (seq 0 n)).
  assert (numbered (advance ms w)) as Hn0 by done.
  destruct (fire_all_superseded n (advance ms w) Hn0) as (Hn1 & Hc & Hreq & Hruns).
  { simpl. destruct Hn as [-> _]. lia. }
  split; [unfold elapse; by rewrite Hlen, seq_S, foldl_snoc |].
  split; [done |]. split; [done |].
  split; [by destruct (fire_all_frame (seq 0 n) (advance ms w)) as [_ ->] |].
  split; [done |]. split; [by apply Hruns |].
  by destruct (evolves_fire_all (seq 0 n) (advance ms w)) as (_ & -> & _).
Qed.

Lemma pending_latest made u deadline w :
  pending made u deadline w →
  ∃ n, length (runs w) = S n ∧ listenerContext w = S n ∧
       runs w !! n = Some {| payload := u; breakCounter := S n;
                             at_stage := Debouncing deadline |}.
Proof.
  intros ([Hc Hidx] & _ & _ & Hlast). rewrite last_lookup in Hlast.
  destruct (length (runs w)) as [| n] eqn:Hlen.
  - apply lookup_lt_Some in Hlast. lia.
  - exists n. simpl in Hlast. rewrite Hc in Hlast. done.
Qed.

Lemma pending_call w u :
  numbered w →
  pending (requests w) u (clock w + debounce_ms)%N (step w (Call u)).
Proof.
  intros Hn. split; [by apply numbered_call |]. split; [done |].
  split; [simpl; unfold debounce_ms; lia |].
  simpl. by rewrite last_snoc.
Qed.

Lemma pending_elapse_early made u deadline w ms :
  pending made u deadline w → (clock w + ms < deadline)%N →
  pending made u deadline (elapse ms w).
Proof.
  intros Hp Hearly. destruct (pending_latest _ _ _ _ Hp) as (n & Hlen & Hc & Hlast).
  destruct Hp as (Hn & Hreq & _ & _).
  destruct (elapse_latest ms w n Hn Hlen) as (w1 & -> & Hn1 & Hc1 & Hclock & Hreq1 & Hlast1 & Hlen1).
  assert (fire_if_due w1 n = w1) as ->.
  { unfold fire_if_due, due. rewrite Hlast1, Hlast. simpl.
    rewrite Hclock. by destruct (N.leb_spec deadline (clock w + ms)); [lia |]. }
  split; [done |]. split; [congruence |]. split; [lia |].
  rewrite last_lookup, Hlen1, Hlen. simpl. rewrite Hlast1, Hlast, Hc1, Hc. done.
Qed.

Lemma pending_elapse_late made u deadline w ms :
  pending made u deadline w → (deadline ≤ clock w + ms)%N →
  fired (made ++ [repos_url u]) (elapse ms w).
Proof.
  intros Hp Hlate. destruct (pending_latest _ _ _ _ Hp) as (n & Hlen & Hc & Hlast).
  destruct Hp as (Hn & Hreq & _ & _).
  assert (numbered (elapse ms w)) as Hn'
    by (eapply evolves_numbered; [exact Hn | apply evolves_elapse]).
  destruct (elapse_latest ms w n Hn Hlen) as (w1 & Heq & Hn1 & Hc1 & Hclock & Hreq1 & Hlast1 & Hlen1).
  rewrite Hlast in Hlast1.
  assert (fire_if_due w1 n =
          settle n Fetching (call_fetch (repos_url u) w1)) as Hfire.
  { unfold fire_if_due, due. rewrite Hlast1. simpl. rewrite Hclock.
    destruct (N.leb_spec deadline (clock w + ms)); [| lia].
    unfold after_breakpoint_300. rewrite Hlast1. simpl.
    unfold isBreakpoint. simpl. by rewrite Hc1, Hc, Nat.eqb_refl. }
  split; [done |]. rewrite Heq, Hfire.
  split; [simpl; congruence |].
  intros r dl. rewrite last_lookup. simpl.
  rewrite length_alter, Hlen1, Hlen. simpl.
  rewrite list_lookup_alter_eq, Hlast1. simpl. by intros [= <-].
Qed.

Lemma fired_elapse made w ms : fired made w → fired made (elapse ms w).
Proof.
  intros (Hn & Hreq & Hlast).
  assert (numbered (elapse ms w)) as Hn'
    by (eapply evolves_numbered; [exact Hn | apply evolves_elapse]).
  destruct (length (runs w)) as [| n] eqn:Hlen.
  - assert (elapse ms w = advance ms w) as -> by (unfold elapse; by rewrite Hlen).
    done.
  - destruct (elapse_latest ms w n Hn Hlen) as (w1 & -> & Hn1 & Hc1 & Hclock & Hreq1 & Hlast1 & Hlen1).
    assert (fire_if_due w1 n = w1) as ->.
    { unfold fire_if_due, due. rewrite Hlast1.
      destruct (runs w !! n) as [r |] eqn:Hr; [| done].
      destruct (at_stage r) as [dl | | | | |] eqn:Hst; try done.
      destruct (Hlast r dl); [| done]. by rewrite last_lookup, Hlen. }
    split; [done |]. split; [congruence |].
    intros r dl. rewrite last_lookup, Hlen1, Hlen. simpl. rewrite Hlast1.
    intros Hr. apply Hlast. by rewrite last_lookup, Hlen.
Qed.

(** ** Debouncing *)

Lemma exec_app trace1 trace2 w :
  exec (trace1 ++ trace2) w = exec trace2 (exec trace1 w).
Proof. apply foldl_app. Qed.

Lemma elapsed_app evs1 evs2 :
  elapsed (evs1 ++ evs2) = (elapsed evs1 + elapsed evs2)%N.
Proof.
  induction evs1 as [| e evs1 IH]; [done |].
  destruct e; simpl; rewrite IH; lia.
Qed.

Lemma elapse_or_not e : (∃ ms, e = Elapse ms) ∨ (∀ ms, e ≠ Elapse ms).
Proof. destruct e; (left; by eexists) || (right; done). Qed.

Lemma pending_step made u deadline w e :
  pending made u deadline w → is_call e = false →
  (clock w + elapsed [e] < deadline)%N →
  pending made u deadline (step w e).
Proof.
  intros Hp Hcall Hearly.
  destruct (elapse_or_not e) as [[ms ->] | Hne'].
  { apply pending_elapse_early; [done |]. simpl in Hearly. lia. }
  destruct (network_event_frame w e Hcall Hne') as (Hclock & Hreq & Hwait).
  destruct (pending_latest _ _ _ _ Hp) as (n & Hlen & Hc & Hlast).
  destruct Hp as (Hn & Hmade & Hlt & _).
  destruct (evolves_step w e Hcall) as (Hc' & Hlen' & _).
  split; [by apply numbered_step |]. split; [congruence |]. split; [lia |].
  rewrite last_lookup, Hlen', Hlen. simpl.
  rewrite (Hwait n _ deadline Hlast eq_refl), Hc', Hc. done.
Qed.

Lemma fired_step made w e : fired made w → is_call e = false → fired made (step w e).
Proof.
  intros Hf Hcall.
  destruct (elapse_or_not e) as [[ms ->] | Hne'].
  { by apply fired_elapse. }
  destruct (network_event_frame w e Hcall Hne') as (_ & Hreq & _).
  destruct Hf as (Hn & Hmade & Hlast).
  split; [by apply numbered_step |]. split; [congruence |].
  intros r' dl Hr' Hst.
  destruct (evolves_last w (step w e) r' (evolves_step w e Hcall) Hr')
    as (r & Hr & _ & _ & [Heq | [_ Hnever]]).
  - subst r'. by apply (Hlast r dl).
  - by apply (Hnever dl).
Qed.

Lemma fired_exec made trace w :
  fired made w → no_calls trace → fired made (exec trace w).
Proof.
  revert w. induction trace as [| e trace IH]; intros w Hf Hnc; [done |].
  apply Forall_cons in Hnc as [He Hnc].
  apply IH; [by apply fired_step | done].
Qed.

(** After a call and until the next one: no request is made before the
    debounce window has passed, and exactly the request for the value of
    the call has been made once it has. *)
Lemma after_call made u deadline tail w :
  pending made u deadline w → no_calls tail →
  ((clock w + elapsed tail < deadline)%N → pending made u deadline (exec tail w)) ∧
  ((deadline ≤ clock w + elapsed tail)%N →
     fired (made ++ [repos_url u]) (exec tail w)).
Proof.
  revert w. induction tail as [| e tail IH]; intros w Hp Hnc.
  { simpl. split; [done |]. destruct Hp as (_ & _ & Hlt & _). lia. }
  apply Forall_cons in Hnc as [He Hnc].
  change (e :: tail) with ([e] ++ tail)%list. rewrite elapsed_app, exec_app.
  change (exec [e] w) with (step w e).
  destruct (decide (clock w + elapsed [e] < deadline)%N) as [Hearly | Hlate].
  - destruct (IH (step w e)) as [IHp IHf]; [by apply pending_step | done |].
    rewrite clock_step in IHp, IHf.
    split; intros Hcond; [apply IHp | apply IHf]; lia.
  - assert (fired (made ++ [repos_url u]) (step w e)) as Hf.
    { destruct e as [| ms | | |]; try done.
      - apply (pending_elapse_late made u deadline); [done |]. simpl in Hlate. lia.
      - destruct Hp as (_ & _ & Hlt & _). simpl in Hlate. lia.
      - destruct Hp as (_ & _ & Hlt & _). simpl in Hlate. lia.
      - destruct Hp as (_ & _ & Hlt & _). simpl in Hlate. lia. }
    split; [lia |]. intros _. by apply fired_exec.
Qed.

(** Calls that follow each other within the debounce window make no
    request. *)
Lemma burst_makes_no_request calls w :
  numbered w → Forall (λ c, within_window c.2) calls →
  numbered (exec (burst calls) w) ∧
  requests (exec (burst calls) w) = requests w ∧
  clock (exec (burst calls) w) =
    (clock w + elapsed (burst calls))%N.
Proof.
  revert w. induction calls as [| [u gap] calls IH]; intros w Hn Hwin.
  { simpl. split; [done |]. split; [done | lia]. }
  apply Forall_cons in Hwin as [[Hnc Hshort] Hwin]. simpl in Hnc, Hshort.
  simpl burst.
  change (Call u :: gap ++ burst calls)%list
    with ([Call u] ++ (gap ++ burst calls))%list.
  rewrite !exec_app, !elapsed_app. change (exec [Call u] w) with (step w (Call u)).
  destruct (after_call (requests w) u (clock w + debounce_ms)%N gap
              (step w (Call u)) (pending_call w u Hn) Hnc) as [Hp _].
  destruct Hp as (Hn' & Hreq & _ & _); [simpl; lia |].
  destruct (IH (exec gap (step w (Call u))) Hn' Hwin) as (Hn'' & Hreq' & Hclock).
  split; [done |]. split; [congruence |].
  rewrite Hclock. simpl elapsed.
  assert (clock (exec gap (step w (Call u))) = (clock w + elapsed gap)%N) as ->; [| lia].
  clear -Hnc. generalize (step w (Call u)) (eq_refl : clock (step w (Call u)) = clock w).
  generalize (clock w). induction gap as [| e gap IHg]; intros c w1 Hc.
  { simpl. lia. }
  apply Forall_cons in Hnc as [_ Hnc].
  change (e :: gap) with ([e] ++ gap)%list. rewrite exec_app, elapsed_app.
  change (exec [e] w1) with (step w1 e).
  rewrite (IHg Hnc (c + elapsed [e])%N (step w1 e)); [lia |].
  rewrite clock_step. lia.
Qed.

(** C2: in a sequence of calls of [setUsername] in which every call comes
    within 300 ms of the one before, whatever else happens in between, no
    request is made for any value until the window of the last call has
    passed; from then on, and until the next call, exactly one request has
    been made, and it is the request for the last value. *)
Theorem only_last_call_fetches
    (w : widget) (earlier : list (string * list event)) (last_value : string)
    (tail : list event) :
  numbered w →
  Forall (λ c, within_window c.2) earlier →
  no_calls tail →
  let w' := exec (burst earlier ++ Call last_value :: tail) w in
  ((elapsed tail < debounce_ms)%N → requests w' = requests w) ∧
  ((debounce_ms ≤ elapsed tail)%N →
     requests w' = (requests w ++ [repos_url last_value])%list).
Proof.
  intros Hn Hwin Hnc w'.
  destruct (burst_makes_no_request earlier w Hn Hwin) as (Hn1 & Hreq1 & _).
  set (w1 := exec (burst earlier) w) in *.
  assert (w' = exec tail (step w1 (Call last_value))) as ->.
  { unfold w'. by rewrite exec_app. }
  destruct (after_call (requests w1) last_value (clock w1 + debounce_ms)%N tail
              (step w1 (Call last_value)) (pending_call w1 last_value Hn1) Hnc)
    as [Hp Hf].
  split; intros Hcond.
  - destruct Hp as (_ & -> & _); [simpl; lia | done].
  - destruct Hf as (_ & -> & _); [simpl; lia |]. by rewrite Hreq1.
Qed.

Lemma only_last_call_fetches_witness :
  let earlier := [("k", [Elapse 120]); ("ke", [Elapse 299])] in
  let tail := [Elapse 300] in
  numbered built ∧ Forall (λ c, within_window c.2) earlier ∧ no_calls tail ∧
  requests (exec (burst earlier ++ Call "kea" :: tail) built) =
    ["https://api.github.com/users/kea/repos?per_page=250"].
Proof.
  intros earlier tail.
  assert (Forall (λ c, within_window c.2) earlier) as Hwin.
  { repeat constructor; simpl; unfold debounce_ms; lia. }
  assert (no_calls tail) as Hnc by (repeat constructor).
  split; [exact numbered_built |]. split; [exact Hwin |]. split; [exact Hnc |].
  destruct (only_last_call_fetches built earlier "kea" tail numbered_built Hwin Hnc)
    as [_ Hlate].
  rewrite Hlate; [reflexivity | simpl; unfold debounce_ms; lia].
Defined.

(** The last scenario of the spec: "a" at once followed by "b". *)
Lemma debounce_scenario :
  requests (exec [Call "a"; Call "b"; Elapse 300] built) =
    ["https://api.github.com/users/b/repos?per_page=250"].
Proof. reflexivity. Qed.

(** ** ResultSet and ErrorMessage

    The two are not both non-empty as long as every completion that occurs
    is that of the latest request: what breaks the exclusion are the
    completions of superseded requests that no breakpoint stops. *)

Lemma exclusive_unchanged w w' :
  exclusive w → evolves w w' → store w' = store w → exclusive w'.
Proof.
  intros (Hn & Hex & Hclear) Hev Hstore.
  split; [by eapply evolves_numbered |]. rewrite Hstore. split; [done |].
  intros r' Hr' Haw'.
  destruct (evolves_last w w' r' Hev Hr') as (r & Hr & _ & _ & [Heq | [Haw _]]).
  - subst r'. by apply (Hclear r).
  - by apply (Hclear r).
Qed.

Lemma exclusive_call w u : exclusive w → exclusive (step w (Call u)).
Proof.
  intros (Hn & _ & _). split; [by apply numbered_call |]. split.
  - intros [(x & rest & Hres) _]. discriminate Hres.
  - done.
Qed.

Lemma latest_run w i r :
  numbered w → S i = listenerContext w → runs w !! i = Some r →
  last (runs w) = Some r.
Proof.
  intros [Hc _] Hi Hr. rewrite last_lookup, <- Hc, <- Hi. done.
Qed.

Lemma exclusive_completed w i r a :
  exclusive w → S i = listenerContext w → runs w !! i = Some r → awaiting r →
  (∀ u, a ≠ setUsername u) →
  exclusive (dispatch_and_return i a w).
Proof.
  intros Hex Hi Hr Haw Hact.
  destruct (dispatch_and_return_cases i a w Hact) as [-> | ->]; last first.
  { apply (exclusive_unchanged w); [done | | done].
    by apply (evolves_settle i _ w r). }
  destruct Hex as (Hn & _ & Hclear).
  destruct (Hclear r (latest_run w i r Hn Hi Hr) Haw) as [Hrepos Herr].
  set (w1 := with_store (reducers (store w) a) w).
  assert (numbered w1) as Hn1 by done.
  assert (runs w1 !! i = Some r) as Hr1 by done.
  split; [| split].
  - eapply evolves_numbered; [exact Hn1 |]. by apply (evolves_settle i Returned _ r).
  - destruct a as [u | json | m]; [by destruct (Hact u) | |]; simpl.
    + intros [_ [Hnull _]]. simpl in Hnull. by rewrite Herr in Hnull.
    + intros [(x & rest & Hres) _]. simpl in Hres. by rewrite Hrepos in Hres.
  - intros r'. rewrite last_lookup. simpl. rewrite length_alter.
    assert (length (runs w) = S i) as -> by (destruct Hn as [<- _]; done).
    simpl. rewrite list_lookup_alter_eq, Hr. simpl. by intros [= <-].
Qed.

Lemma exclusive_step w e :
  exclusive w → (∀ i, completion_of e = Some i → S i = listenerContext w) →
  exclusive (step w e).
Proof.
  intros Hex Hcur. destruct e as [u | ms | i m | i status body | i].
  - by apply exclusive_call.
  - apply (exclusive_unchanged w); [done | apply evolves_elapse |].
    exact (proj1 (elapse_frame ms w)).
  - specialize (Hcur i eq_refl). simpl. unfold fetch_rejected.
    destruct (runs w !! i) as [r |] eqn:Hr; [| done].
    destruct (at_stage r) eqn:Hst; try done.
    apply (exclusive_completed w i r); [done .. | | done].
    unfold awaiting. by rewrite Hst.
  - apply (exclusive_unchanged w); [done | apply evolves_fetch_resolved |].
    simpl. unfold fetch_resolved. destruct (runs w !! i) as [r |]; [| done].
    destruct (at_stage r); try done. by destruct (isBreakpoint w r).
  - specialize (Hcur i eq_refl). simpl.
    pose proof (evolves_json_settled i w) as Hev. revert Hev.
    unfold json_settled.
    destruct (runs w !! i) as [r |] eqn:Hr; [| done].
    destruct (at_stage r) as [| | status body | | |] eqn:Hst; try done.
    assert (awaiting r) as Haw by (unfold awaiting; by rewrite Hst).
    destruct body as [json |];
      [| intros Hev; by apply (exclusive_unchanged w)].
    destruct (status =? 200).
    { intros _. by apply (exclusive_completed w i r). }
    destruct (get_property json "message").
    + intros Hev. by apply (exclusive_unchanged w).
    + intros _. by apply (exclusive_completed w i r).
Qed.

Lemma exclusive_mounted : exclusive mounted.
Proof.
  split; [apply (numbered_call built "keajs"), numbered_built |]. split.
  - intros [(x & rest & Hres) _]. discriminate Hres.
  - done.
Qed.

(** X5: ResultSet and ErrorMessage are mutually exclusive in every state
    reached without the completion of a superseded request. *)
Theorem exclusive_without_stale_completions trace :
  completions_current trace mounted →
  let w := exec trace mounted in
  ¬ (has_results (store w) ∧ has_error (store w)).
Proof.
  intros Hcur w.
  enough (exclusive w) as (_ & Hex & _) by done.
  unfold w. clear w. revert Hcur. generalize exclusive_mounted.
  generalize mounted. induction trace as [| e trace IH]; intros w Hex Hcur; [done |].
  destruct Hcur as [He Hcur]. apply (IH (step w e)); [| done].
  by apply exclusive_step.
Qed.

Lemma exclusive_without_stale_completions_witness :
  let found := JArr [JObj [("full_name", JStr "kea/x"); ("stargazers_count", JNum 1)]] in
  let trace := [Elapse 300; Call "kea"; Elapse 300;
                FetchResolves 1 200 (Some found); JsonSettles 1] in
  completions_current trace mounted ∧
  ¬ (has_results (store (exec trace mounted)) ∧
     has_error (store (exec trace mounted))).
Proof.
  intros found trace.
  assert (completions_current trace mounted) as Hcur.
  { simpl. repeat split; intros i; try discriminate. by intros [= <-]. }
  split; [exact Hcur |].
  exact (exclusive_without_stale_completions trace Hcur).
Defined.

(** ** The scenarios of the spec *)

(** "keajs" is found with two repositories of 5 and 10 stars. *)
Lemma scenario_found :
  let kea := JObj [("full_name", JStr "keajs/kea"); ("stargazers_count", JNum 5)] in
  let docs := JObj [("full_name", JStr "keajs/kea-docs"); ("stargazers_count", JNum 10)] in
  let w := exec [Call "keajs"; Elapse 300;
                 FetchResolves 1 200 (Some (JArr [kea; docs])); JsonSettles 1]
             mounted in
  requests w = ["https://api.github.com/users/keajs/repos?per_page=250"] ∧
  sortedRepositories_value (store w) = Some [docs; kea] ∧
  isLoading (store w) = false ∧ error (store w) = JNull.
Proof. intros kea docs w. split; [reflexivity |]. split; [reflexivity |]. done. Qed.

(** "doesnotexist" is answered by 404 and a message. *)
Lemma scenario_not_found :
  let w := exec [Call "doesnotexist"; Elapse 300;
                 FetchResolves 1 404 (Some (JObj [("message", JStr "Not Found")]));
                 JsonSettles 1] mounted in
  error (store w) = JStr "Not Found" ∧
  sortedRepositories_value (store w) = Some [] ∧ isLoading (store w) = false.
Proof. intros w. split; [reflexivity |]. split; reflexivity. Qed.

(** * Further properties of the logic and of the component *)

(** ** What changes the store *)

Lemma store_fetch_resolved i status body w :
  store (fetch_resolved i status body w) = store w.
Proof.
  unfold fetch_resolved. destruct (runs w !! i) as [r |]; [| done].
  destruct (at_stage r); try done. by destruct (isBreakpoint w r).
Qed.

Lemma store_step_quiet w e : quiet e = true → store (step w e) = store w.
Proof.
  destruct e as [| ms | | i status body |]; try done; intros _.
  - exact (proj1 (elapse_frame ms w)).
  - apply store_fetch_resolved.
Qed.

Lemma store_exec_quiet trace w :
  Forall (λ e, quiet e = true) trace → store (exec trace w) = store w.
Proof.
  revert w. induction trace as [| e trace IH]; intros w Hq; [done |].
  apply Forall_cons in Hq as [He Hq]. simpl.
  fold (exec trace (step w e)). by rewrite IH, store_step_quiet.
Qed.

Lemma username_step w e :
  is_call e = false → username (store (step w e)) = username (store w).
Proof.
  destruct e as [| ms | i m | i status body | i]; try done; intros _.
  - by rewrite store_step_quiet.
  - simpl. unfold fetch_rejected. destruct (runs w !! i) as [r |]; [| done].
    by destruct (at_stage r).
  - by rewrite store_step_quiet.
  - simpl. unfold json_settled. destruct (runs w !! i) as [r |]; [| done].
    destruct (at_stage r) as [| | status [json |] | | |]; try done.
    destruct (status =? 200); [done |].
    destruct (get_property json "message") as [e | m]; [done |].
    by destruct (dispatch_and_return_frame i (setFetchError m) w)
      as (_ & _ & ? & _).
Qed.

(** X1: the query is always the value of the last call of [setUsername]:
    nothing that happens to a request, current or superseded, changes it. *)
Theorem username_is_last_call (trace : list event) (w : widget) :
  username (store (exec trace w)) =
  default (username (store w)) (last (calls_of trace)).
Proof.
  revert w. induction trace as [| e trace IH]; intros w; [done |].
  simpl exec. fold (exec trace (step w e)). rewrite IH.
  destruct (is_call e) eqn:He.
  - destruct e as [u | | | |]; try done. simpl calls_of.
    rewrite last_cons. by destruct (last (calls_of trace)).
  - rewrite username_step by done. by destruct e.
Qed.

(** X2: after a call, and as long as nothing but time passing and responses
    arriving happens, the store is the one the call has set and the
    component shows the new query and "Loading...". *)
Theorem call_shows_loading_until_completion
    (w : widget) (u : string) (tail : list event) :
  Forall (λ e, quiet e = true) tail →
  let w' := exec (Call u :: tail) w in
  store w' = {| username := u; repositories := JArr []; isLoading := true;
                error := JNull |} ∧
  Github (store w') = Some {| input_value := u; body := ShowLoading |}.
Proof.
  intros Hq w'.
  assert (store w' = Values u (JArr []) true JNull) as ->; [| done].
  unfold w'. simpl exec. fold (exec tail (step w (Call u))).
  by rewrite store_exec_quiet.
Qed.

Lemma call_shows_loading_until_completion_witness :
  let tail := [Elapse 300; FetchResolves 1 200 (Some (JArr []))] in
  Forall (λ e, quiet e = true) tail ∧
  Github (store (exec (Call "kea" :: tail) mounted)) =
    Some {| input_value := "kea"; body := ShowLoading |}.
Proof.
  intros tail.
  assert (Forall (λ e, quiet e = true) tail) as Hq by (repeat constructor).
  split; [exact Hq |].
  exact (proj2 (call_shows_loading_until_completion mounted "kea" tail Hq)).
Defined.

(** ** Superseded requests *)

(** X3: a response that arrives for a superseded request changes nothing but
    the run it belongs to, which is stopped; its body is never read. *)
Theorem stale_response_is_discarded
    (w : widget) (i : nat) (r : listener_run) (status : Z) (body : option jsval) :
  runs w !! i = Some r → at_stage r = Fetching → superseded w r →
  let w' := exec [FetchResolves i status body; JsonSettles i] w in
  store w' = store w ∧ requests w' = requests w ∧ clock w' = clock w ∧
  listenerContext w' = listenerContext w ∧
  runs w' = <[i := with_stage Broken r]> (runs w).
Proof.
  intros Hi Hst Hsup w'. apply isBreakpoint_superseded in Hsup.
  assert (step w (FetchResolves i status body) = settle i Broken w) as H1.
  { simpl. unfold fetch_resolved. by rewrite Hi, Hst, Hsup. }
  assert (runs (settle i Broken w) !! i = Some (with_stage Broken r)) as Hi1
    by (by apply settle_lookup).
  assert (w' = settle i Broken w) as ->.
  { unfold w', exec. simpl foldl. fold (step w (FetchResolves i status body)).
    rewrite H1. unfold json_settled. by rewrite Hi1. }
  repeat (split; [done |]). simpl.
  apply list_eq. intros j. destruct (decide (i = j)) as [<- | Hne].
  - rewrite list_lookup_alter_eq, Hi. simpl.
    symmetry. apply list_lookup_insert_eq. by eapply lookup_lt_Some.
  - by rewrite list_lookup_alter_ne, list_lookup_insert_ne.
Qed.

Lemma stale_response_is_discarded_witness :
  let w := exec [Call "a"; Elapse 300; Call "b"] mounted in
  let r := {| payload := "a"; breakCounter := 2; at_stage := Fetching |} in
  let found := Some (JArr [JObj [("stargazers_count", JNum 1)]]) in
  runs w !! 1%nat = Some r ∧ at_stage r = Fetching ∧ superseded w r ∧
  store (exec [FetchResolves 1 200 found; JsonSettles 1] w) = store w.
Proof.
  intros w r found.
  assert (runs w !! 1%nat = Some r) as Hi by reflexivity.
  assert (at_stage r = Fetching) as Hst by reflexivity.
  assert (superseded w r) as Hsup by (unfold superseded; simpl; lia).
  split; [exact Hi |]. split; [exact Hst |]. split; [exact Hsup |].
  exact (proj1 (stale_response_is_discarded w 1 r 200 found Hi Hst Hsup)).
Defined.

(** X4: Lines 73-79 pass no breakpoint: when the query is changed while the
    body of a response is being read, the repositories of the old query
    are stored under the new one, and the widget stops showing that it is
    loading. *)
Theorem body_read_is_unguarded
    (w : widget) (i : nat) (r : listener_run) (json : jsval) (u : string) :
  runs w !! i = Some r → at_stage r = Fetching → ¬ superseded w r →
  let w' := exec [FetchResolves i 200 (Some json); Call u; JsonSettles i] w in
  store w' = {| username := u; repositories := json; isLoading := false;
                error := JNull |}.
Proof.
  intros Hi Hst Hcur w'. apply isBreakpoint_current in Hcur.
  set (w1 := settle i (Parsing 200 (Some json)) w).
  assert (step w (FetchResolves i 200 (Some json)) = w1) as H1.
  { simpl. unfold fetch_resolved. by rewrite Hi, Hst, Hcur. }
  assert (runs (step w1 (Call u)) !! i =
          Some (with_stage (Parsing 200 (Some json)) r)) as Hi2.
  { simpl. rewrite lookup_app_l.
    - by rewrite list_lookup_alter_eq, Hi.
    - rewrite length_alter. by eapply lookup_lt_Some. }
  assert (w' = json_settled i
                 (step (step w (FetchResolves i 200 (Some json))) (Call u))) as ->
    by done.
  rewrite H1. unfold json_settled. rewrite Hi2. done.
Qed.

Lemma body_read_is_unguarded_witness :
  let w := exec [Elapse 300] mounted in
  let r := {| payload := "keajs"; breakCounter := 1; at_stage := Fetching |} in
  let found := JArr [JObj [("stargazers_count", JNum 1)]] in
  runs w !! 0%nat = Some r ∧ at_stage r = Fetching ∧ ¬ superseded w r ∧
  store (exec [FetchResolves 0 200 (Some found); Call "other"; JsonSettles 0] w) =
    {| username := "other"; repositories := found; isLoading := false;
       error := JNull |}.
Proof.
  intros w r found.
  assert (runs w !! 0%nat = Some r) as Hi by reflexivity.
  assert (at_stage r = Fetching) as Hst by reflexivity.
  assert (¬ superseded w r) as Hcur by (intros Hs; apply Hs; reflexivity).
  split; [exact Hi |]. split; [exact Hst |]. split; [exact Hcur |].
  exact (body_read_is_unguarded w 0 r found "other" Hi Hst Hcur).
Defined.

(** ** Requests and calls *)

Lemma asked_evolves w w' : evolves w w' → asked w' = asked w.
Proof.
  intros (_ & Hlen & Hruns). unfold asked. apply list_eq. intros j.
  rewrite !list_lookup_fmap.
  destruct (runs w !! j) as [r |] eqn:Hj.
  - destruct (Hruns j r Hj) as (r' & -> & Hp & _). simpl. by rewrite Hp.
  - apply lookup_ge_None in Hj. rewrite <- Hlen in Hj.
    apply lookup_ge_None in Hj. by rewrite Hj.
Qed.

Lemma asked_call w u : asked (step w (Call u)) = (asked w ++ [u])%list.
Proof. unfold asked. simpl. by rewrite fmap_app. Qed.

Lemma asked_exec trace w :
  asked (exec trace w) = (asked w ++ calls_of trace)%list.
Proof.
  revert w. induction trace as [| e trace IH]; intros w.
  { simpl. by rewrite app_nil_r. }
  simpl exec. fold (exec trace (step w e)). rewrite IH.
  destruct (is_call e) eqn:He.
  - destruct e as [u | | | |]; try done.
    rewrite asked_call. simpl calls_of. by rewrite <- app_assoc.
  - rewrite (asked_evolves w (step w e)) by (by apply evolves_step).
    by destruct e.
Qed.

Lemma accounted_built : accounted built.
Proof. split; [apply numbered_built |]. split; [done |]. by intros r dl. Qed.

Lemma accounted_call w u : accounted w → accounted (step w (Call u)).
Proof.
  intros (Hn & Hsub & _). split; [by apply numbered_call |].
  rewrite asked_call, fmap_app. split; [by apply sublist_inserts_r |].
  intros r dl. simpl runs. rewrite last_snoc. intros [= <-]. simpl. intros [= <-].
  rewrite removelast_last. split; [unfold debounce_ms; lia | done].
Qed.

Lemma accounted_fired w w' :
  accounted w → asked w' = asked w → fired (requests w) w' → accounted w'.
Proof.
  intros (_ & Hsub & _) Hasked (Hn & Hreq & Hlast).
  split; [done |]. rewrite Hreq, Hasked. split; [done |].
  intros r dl Hr Hst. by destruct (Hlast r dl Hr).
Qed.

Lemma accounted_elapse w ms : accounted w → accounted (elapse ms w).
Proof.
  intros Hacc. pose proof Hacc as (Hn & Hsub & Hwait).
  pose proof (asked_evolves w (elapse ms w) (evolves_elapse ms w)) as Hasked.
  destruct (last (runs w)) as [r |] eqn:Hlast; last first.
  { apply (accounted_fired w); [done | done |]. apply fired_elapse.
    split; [done |]. split; [done |]. intros r dl. by rewrite Hlast. }
  destruct (at_stage r) as [dl | | | | |] eqn:Hst;
    try (apply (accounted_fired w); [done | done |]; apply fired_elapse;
         split; [done |]; split; [done |];
         intros r' dl'; rewrite Hlast; intros [= <-]; by rewrite Hst).
  destruct (Hwait r dl eq_refl Hst) as [Hclock Hearlier].
  assert (pending (requests w) (payload r) dl w) as Hp.
  { split; [done |]. split; [done |]. split; [done |].
    rewrite Hlast. f_equal. destruct Hn as [Hc Hidx].
    rewrite last_lookup in Hlast.
    assert (length (runs w) ≠ 0%nat) as Hne
      by (apply lookup_lt_Some in Hlast; lia).
    pose proof (Hidx _ r Hlast) as Hb.
    destruct r as [p b st]. simpl in *. subst st. f_equal. lia. }
  destruct (N.lt_ge_cases (clock w + ms) dl) as [Hearly | Hlate].
  - destruct (pending_elapse_early _ _ _ w ms Hp Hearly) as (Hn' & Hreq & Hclock' & Hlast').
    split; [done |]. rewrite Hreq, Hasked. split; [done |].
    intros r' dl'. rewrite Hlast'. intros [= <-]. simpl. intros [= <-]. done.
  - destruct (pending_elapse_late _ _ _ w ms Hp Hlate) as (Hn' & Hreq & Hlast').
    split; [done |]. rewrite Hreq, Hasked. split.
    + apply last_Some in Hlast as [earlier Hruns].
      assert (asked w = (payload <$> earlier) ++ [payload r])%list as Hsplit
        by (unfold asked; by rewrite Hruns, fmap_app).
      rewrite Hsplit, removelast_last in Hearlier. rewrite Hsplit, fmap_app.
      by apply sublist_app.
    + intros r' dl' Hr' Hst'. by destruct (Hlast' r' dl' Hr').
Qed.

Lemma accounted_step w e : accounted w → accounted (step w e).
Proof.
  intros Hacc. destruct (is_call e) eqn:Hcall.
  { destruct e; try done. by apply accounted_call. }
  destruct (elapse_or_not e) as [[ms ->] | Hne]; [by apply accounted_elapse |].
  destruct Hacc as (Hn & Hsub & Hwait).
  destruct (network_event_frame w e Hcall Hne) as (Hclock & Hreq & _).
  pose proof (evolves_step w e Hcall) as Hev.
  split; [by apply numbered_step |].
  rewrite Hreq, Hclock, (asked_evolves w (step w e) Hev). split; [done |].
  intros r' dl Hr' Hst.
  destruct (evolves_last w (step w e) r' Hev Hr') as (r & Hr & _ & _ & [Heq | [_ Hnever]]).
  - subst r'. by apply (Hwait r dl).
  - by destruct (Hnever dl).
Qed.

Lemma accounted_exec trace w : accounted w → accounted (exec trace w).
Proof.
  revert w. induction trace as [| e trace IH]; intros w Hacc; [done |].
  apply IH. by apply accounted_step.
Qed.

(** X6: the requests made are requests for usernames that were set, in the
    order of the calls and at most one for each call: a request is never
    repeated, whatever becomes of it. *)
Theorem requests_follow_calls (trace : list event) :
  let w := exec trace mounted in
  requests w `sublist_of` (repos_url <$> "keajs" :: calls_of trace) ∧
  (length (requests w) ≤ S (length (calls_of trace)))%nat.
Proof.
  intros w.
  assert (requests w `sublist_of` (repos_url <$> "keajs" :: calls_of trace)) as Hsub.
  { destruct (accounted_exec trace mounted) as (_ & Hsub & _).
    { apply (accounted_call built "keajs"), accounted_built. }
    unfold w. by rewrite asked_exec in Hsub. }
  split; [done |]. apply sublist_length in Hsub.
  by rewrite length_fmap in Hsub.
Qed.

(** ** Calls superseded within their debounce window *)

Lemma fire_if_due_other w j i :
  i ≠ j → runs (fire_if_due w j) !! i = runs w !! i.
Proof.
  intros Hne. unfold fire_if_due. destruct (due j w); [| done].
  unfold after_breakpoint_300. destruct (runs w !! j) as [r |]; [| done].
  destruct (at_stage r); try done.
  destruct (isBreakpoint w r); by rewrite settle_lookup_ne.
Qed.

Lemma abandoned_call i u dl w v :
  abandoned i u dl w → abandoned i u dl (step w (Call v)).
Proof.
  intros (Hn & Hold & r & Hr & Hp & Hst).
  assert (i < length (runs w))%nat as Hlt by (by eapply lookup_lt_Some).
  split; [by apply numbered_call |]. split.
  - simpl. destruct Hn as [-> _]. lia.
  - exists r. split; [simpl; by rewrite lookup_app_l | done].
Qed.

Lemma abandoned_fire i u dl w j :
  abandoned i u dl w → abandoned i u dl (fire_if_due w j).
Proof.
  intros (Hn & Hold & r & Hr & Hp & Hst).
  pose proof (evolves_fire_if_due w j) as Hev.
  split; [by eapply evolves_numbered |].
  split; [by destruct Hev as (-> & _) |].
  destruct (decide (i = j)) as [<- | Hne];
    [| exists r; by rewrite fire_if_due_other].
  unfold fire_if_due. destruct (due i w); [| by exists r].
  unfold after_breakpoint_300. rewrite Hr.
  destruct Hst as [Hst | Hst]; rewrite Hst; [| by exists r; auto].
  assert (isBreakpoint w r = true) as ->.
  { apply isBreakpoint_superseded. unfold superseded.
    destruct Hn as [_ Hidx]. by rewrite (Hidx i r Hr). }
  exists (with_stage Broken r). split; [by apply settle_lookup |]. by auto.
Qed.

Lemma abandoned_fire_all i u dl indices w :
  abandoned i u dl w → abandoned i u dl (foldl fire_if_due w indices).
Proof.
  revert w. induction indices as [| j indices IH]; intros w Hab; [done |].
  simpl. by apply IH, abandoned_fire.
Qed.

Lemma abandoned_step i u dl w e :
  abandoned i u dl w → abandoned i u dl (step w e).
Proof.
  intros Hab. destruct (is_call e) eqn:Hcall.
  { destruct e; try done. by apply abandoned_call. }
  destruct (elapse_or_not e) as [[ms ->] | Hne].
  { simpl. unfold elapse. by apply abandoned_fire_all. }
  destruct Hab as (Hn & Hold & r & Hr & Hp & Hst).
  pose proof (evolves_step w e Hcall) as Hev.
  split; [by apply numbered_step |].
  split; [by destruct Hev as (-> & _) |].
  exists r. split; [| done].
  destruct Hst as [Hst | Hst].
  - destruct (network_event_frame w e Hcall Hne) as (_ & _ & Hwait).
    by apply (Hwait i r dl).
  - destruct Hev as (_ & _ & Hruns).
    destruct (Hruns i r Hr) as (r' & Hr' & _ & _ & [-> | [Haw _]]); [done |].
    unfold awaiting in Haw. by rewrite Hst in Haw.
Qed.

(** X7: a call that is superseded while it waits for its debounce window never
    reaches its fetch: whatever happens afterwards, its run is still
    waiting or has been stopped at the breakpoint of line 57. *)
Theorem superseded_call_never_fetches
    (w : widget) (i : nat) (r : listener_run) (deadline : N) (trace : list event) :
  numbered w → runs w !! i = Some r → at_stage r = Debouncing deadline →
  superseded w r →
  ∃ r', runs (exec trace w) !! i = Some r' ∧ payload r' = payload r ∧
        (at_stage r' = Debouncing deadline ∨ at_stage r' = Broken).
Proof.
  intros Hn Hr Hst Hsup.
  enough (abandoned i (payload r) deadline (exec trace w)) as (_ & _ & r' & ?)
    by (by exists r').
  assert (abandoned i (payload r) deadline w) as Hab.
  { split; [done |]. split.
    - unfold superseded in Hsup. destruct Hn as [_ Hidx].
      by rewrite (Hidx i r Hr) in Hsup.
    - exists r. by auto. }
  clear Hn Hr Hst Hsup. revert w Hab.
  induction trace as [| e trace IH]; intros w Hab; [done |].
  apply IH. by apply abandoned_step.
Qed.

Lemma superseded_call_never_fetches_witness :
  let w := exec [Call "a"] mounted in
  let r := {| payload := "keajs"; breakCounter := 1; at_stage := Debouncing 300 |} in
  let trace := [Elapse 300; FetchRejects 0 "Failed to fetch";
                FetchResolves 0 200 None; Call "b"; Elapse 300] in
  numbered w ∧ runs w !! 0%nat = Some r ∧ at_stage r = Debouncing 300 ∧
  superseded w r ∧
  ∃ r', runs (exec trace w) !! 0%nat = Some r' ∧ payload r' = payload r ∧
        (at_stage r' = Debouncing 300 ∨ at_stage r' = Broken).
Proof.
  intros w r trace.
  assert (numbered w) as Hn
    by (apply numbered_exec, (numbered_call built "keajs"), numbered_built).
  assert (runs w !! 0%nat = Some r) as Hr by reflexivity.
  assert (at_stage r = Debouncing 300) as Hst by reflexivity.
  assert (superseded w r) as Hsup by (unfold superseded; simpl; lia).
  split; [exact Hn |]. split; [exact Hr |]. split; [exact Hst |].
  split; [exact Hsup |].
  exact (superseded_call_never_fetches w 0 r 300 trace Hn Hr Hst Hsup).
Defined.

(** ** A new query from any state *)

Lemma pending_elapse_fetches made u deadline w ms :
  pending made u deadline w → (deadline ≤ clock w + ms)%N →
  ∃ n, listenerContext (elapse ms w) = S n ∧
       runs (elapse ms w) !! n =
         Some {| payload := u; breakCounter := S n; at_stage := Fetching |} ∧
       requests (elapse ms w) = (made ++ [repos_url u])%list.
Proof.
  intros Hp Hlate. destruct (pending_latest _ _ _ _ Hp) as (n & Hlen & Hc & Hlast).
  destruct Hp as (Hn & Hreq & _ & _).
  destruct (elapse_latest ms w n Hn Hlen)
    as (w1 & Heq & Hn1 & Hc1 & Hclock & Hreq1 & Hlast1 & Hlen1).
  rewrite Hlast in Hlast1.
  assert (fire_if_due w1 n =
          settle n Fetching (call_fetch (repos_url u) w1)) as Hfire.
  { unfold fire_if_due, due. rewrite Hlast1. simpl. rewrite Hclock.
    destruct (N.leb_spec deadline (clock w + ms)); [| lia].
    unfold after_breakpoint_300. rewrite Hlast1. simpl.
    unfold isBreakpoint. simpl. by rewrite Hc1, Hc, Nat.eqb_refl. }
  exists n. rewrite Heq, Hfire. split; [simpl; congruence |].
  split; [| simpl; congruence].
  simpl. by rewrite list_lookup_alter_eq, Hlast1.
Qed.

(** X8: whatever state the widget is in, a new query that is left alone for
    the debounce window and then answered is served: one request is made
    for it, and a 200 response makes its body the ResultSet with no error,
    any other status makes the message that its body provides the
    ErrorMessage. *)
Theorem new_query_is_served
    (w : widget) (u : string) (ms : N) (status : Z) (json : jsval) :
  numbered w → (debounce_ms ≤ ms)%N →
  let n := length (runs w) in
  let w' := exec [Call u; Elapse ms; FetchResolves n status (Some json);
                  JsonSettles n] w in
  requests w' = (requests w ++ [repos_url u])%list ∧
  (status = 200 →
     store w' = {| username := u; repositories := json; isLoading := false;
                   error := JNull |}) ∧
  (status ≠ 200 → ∀ m, get_property json "message" = inr m → m ≠ JUndefined →
     store w' = {| username := u; repositories := JArr []; isLoading := false;
                   error := m |}).
Proof.
  intros Hn Hms n w'.
  pose proof (pending_call w u Hn) as Hp.
  set (w1 := step w (Call u)) in *.
  destruct (pending_elapse_fetches _ _ _ w1 ms Hp) as (k & Hc & Hk & Hreq).
  { simpl. lia. }
  assert (k = n) as ->.
  { destruct (evolves_elapse ms w1) as (Hc' & _). rewrite Hc in Hc'.
    simpl in Hc'. destruct Hn as [Hcn _]. unfold n. lia. }
  set (w2 := elapse ms w1) in *.
  set (r := {| payload := u; breakCounter := S n; at_stage := Fetching |}) in *.
  assert (¬ superseded w2 r) as Hcur
    by (unfold superseded; simpl; rewrite Hc; intros Hs; by apply Hs).
  assert (store w2 = Values u (JArr []) true JNull) as Hstore
    by (unfold w2; by rewrite (proj1 (elapse_frame ms w1))).
  assert (w' = exec [FetchResolves n status (Some json); JsonSettles n] w2) as Hw'
    by done.
  destruct (current_response_settles w2 n r status json Hk eq_refl Hcur)
    as (Hok & Herr & _).
  assert (requests w' = requests w2) as Hreq'.
  { rewrite Hw'.
    assert (∀ w3 e, is_call e = false → (∀ t, e ≠ Elapse t) →
                    requests (step w3 e) = requests w3) as Hframe
      by (intros w3 e H1 H2; by destruct (network_event_frame w3 e H1 H2) as (_ & ? & _)).
    unfold exec. simpl foldl.
    change (json_settled n (fetch_resolved n status (Some json) w2))
      with (step (step w2 (FetchResolves n status (Some json))) (JsonSettles n)).
    by rewrite !Hframe. }
  split; [by rewrite Hreq', Hreq |]. rewrite Hw'. split.
  - intros Heq. destruct (Hok Heq) as [-> _]. by rewrite Hstore.
  - intros Hne m Hm Hdef. destruct (Herr Hne m Hm Hdef) as [-> _].
    by rewrite Hstore.
Qed.

Lemma new_query_is_served_witness :
  let stuck := exec [Elapse 300; FetchResolves 0 200 None; JsonSettles 0] mounted in
  let found := JArr [JObj [("stargazers_count", JNum 1)]] in
  numbered stuck ∧ (debounce_ms ≤ 450)%N ∧
  store (exec [Call "kea"; Elapse 450; FetchResolves 1 200 (Some found);
               JsonSettles 1] stuck) =
    {| username := "kea"; repositories := found; isLoading := false;
       error := JNull |}.
Proof.
  intros stuck found.
  assert (numbered stuck) as Hn
    by (apply numbered_exec, (numbered_call built "keajs"), numbered_built).
  assert (debounce_ms ≤ 450)%N as Hms by (unfold debounce_ms; lia).
  split; [exact Hn |]. split; [exact Hms |].
  destruct (new_query_is_served stuck "kea" 450 200 found Hn Hms) as (_ & Hok & _).
  exact (Hok eq_refl).
Defined.

(** ** More on the selector *)

Lemma stable_arrangement_is_selected repos out :
  repository_records repos → stable_descending repos out →
  sortedRepositories repos = Some out.
Proof.
  intros Hrecs Hout.
  destruct (array_sort_records repos Hrecs) as (sorted & Hsort & Hsorted).
  unfold sortedRepositories. rewrite Hsort. f_equal.
  by apply (stable_descending_unique repos).
Qed.

(** X9: the selector is complete: every stable arrangement of the ResultSet by
    descending star count is the one it returns. *)
Theorem sortedRepositories_only_arrangement (repos out : list jsval) :
  repository_records repos → stable_descending repos out →
  sortedRepositories repos = Some out.
Proof. apply stable_arrangement_is_selected. Qed.

Lemma sortedRepositories_only_arrangement_witness :
  let a := JObj [("full_name", JStr "kea"); ("stargazers_count", JNum 5)] in
  let b := JObj [("full_name", JStr "kea-docs"); ("stargazers_count", JNum 10)] in
  repository_records [a; b] ∧ stable_descending [a; b] [b; a] ∧
  sortedRepositories [a; b] = Some [b; a].
Proof.
  intros a b.
  assert (repository_records [a; b]) as Hrecs
    by (repeat constructor; eexists; reflexivity).
  assert (stable_descending [a; b] [b; a]) as Hout.
  { split; [apply perm_swap |]. split.
    - repeat constructor. exists 10, 5. repeat split; lia.
    - intros k. by apply with_stars_swap. }
  split; [exact Hrecs |]. split; [exact Hout |].
  exact (sortedRepositories_only_arrangement [a; b] [b; a] Hrecs Hout).
Defined.

(** X10: a ResultSet that is already in descending order of stars is returned
    as it is, and so the selector applied to its own result changes
    nothing. *)
Theorem sortedRepositories_idempotent (repos : list jsval) :
  repository_records repos →
  (StronglySorted at_least_as_starred repos → sortedRepositories repos = Some repos) ∧
  (∀ sorted, sortedRepositories repos = Some sorted →
             sortedRepositories sorted = Some sorted).
Proof.
  intros Hrecs.
  assert (∀ l, repository_records l → StronglySorted at_least_as_starred l →
               sortedRepositories l = Some l) as Hsorted.
  { intros l Hl Hs. apply stable_arrangement_is_selected; [done |].
    split; [done |]. split; done. }
  split; [by apply Hsorted |].
  intros sorted Hsort.
  destruct (array_sort_records repos Hrecs) as (out & Hout & Hperm & Hdesc & _).
  unfold sortedRepositories in Hsort. rewrite Hout in Hsort. injection Hsort as ->.
  apply Hsorted; [| done]. unfold repository_records. by rewrite Hperm.
Qed.

Lemma sortedRepositories_idempotent_witness :
  let a := JObj [("full_name", JStr "kea"); ("stargazers_count", JNum 5)] in
  let b := JObj [("full_name", JStr "kea-docs"); ("stargazers_count", JNum 10)] in
  repository_records [a; b] ∧
  ∀ sorted, sortedRepositories [a; b] = Some sorted →
            sortedRepositories sorted = Some sorted.
Proof.
  intros a b.
  assert (repository_records [a; b]) as Hrecs
    by (repeat constructor; eexists; reflexivity).
  split; [exact Hrecs |].
  exact (proj2 (sortedRepositories_idempotent [a; b] Hrecs)).
Defined.

(** ** The component *)

Lemma row_of_record repo : is_Some (stargazers_count repo) → is_Some (row_of repo).
Proof.
  unfold stargazers_count.
  destruct repo as [| | b | n | t | items | fields]; simpl;
    [by intros [? [=]] .. |].
  intros _. by eexists.
Qed.

(** X11: once loading is over and the ResultSet is a non-empty list of
    repository records, the component lists them: the count displayed is
    their number, the rows are their stable arrangement by descending star
    count, and the error, if there is one, is not displayed. *)
Theorem Github_lists_sorted_repositories (s : values) (items : list jsval) :
  isLoading s = false → repositories s = JArr items → items ≠ [] →
  repository_records items →
  ∃ sorted rows,
    Github s = Some {| input_value := username s;
                       body := ShowFound (length items) (username s) rows |} ∧
    stable_descending items sorted ∧
    Forall2 (λ repo row, row_of repo = Some row) sorted rows.
Proof.
  intros Hload Hrepos Hne Hrecs.
  destruct (array_sort_records items Hrecs) as (sorted & Hsort & Hstable).
  pose proof Hstable as (Hperm & _ & _).
  assert (is_Some (mapM row_of sorted)) as [rows Hrows].
  { apply mapM_is_Some. unfold repository_records in Hrecs.
    rewrite <- Hperm in Hrecs. eapply Forall_impl; [exact Hrecs |].
    intros repo. apply row_of_record. }
  exists sorted, rows. split; [| split; [done | by apply mapM_Some]].
  unfold Github, sortedRepositories_value, sortedRepositories.
  rewrite Hrepos, Hsort, Hload. simpl.
  assert (length sorted = length items) as Hlen by (by rewrite Hperm).
  assert ((0 <? length sorted)%nat = true) as ->.
  { apply Nat.ltb_lt. rewrite Hlen. destruct items; [done | simpl; lia]. }
  simpl. rewrite Hrows. simpl. by rewrite Hlen.
Qed.

Lemma Github_lists_sorted_repositories_witness :
  let a := JObj [("id", JNum 1); ("stargazers_count", JNum 5)] in
  let b := JObj [("id", JNum 2); ("stargazers_count", JNum 10)] in
  let s := {| username := "keajs"; repositories := JArr [a; b];
              isLoading := false; error := JStr "Failed to fetch" |} in
  isLoading s = false ∧ repositories s = JArr [a; b] ∧ [a; b] ≠ [] ∧
  repository_records [a; b] ∧
  ∃ sorted rows,
    Github s = Some {| input_value := "keajs";
                       body := ShowFound 2 "keajs" rows |} ∧
    stable_descending [a; b] sorted ∧
    Forall2 (λ repo row, row_of repo = Some row) sorted rows.
Proof.
  intros a b s.
  assert (isLoading s = false) as Hload by reflexivity.
  assert (repositories s = JArr [a; b]) as Hrepos by reflexivity.
  assert ([a; b] ≠ []) as Hne by discriminate.
  assert (repository_records [a; b]) as Hrecs
    by (repeat constructor; eexists; reflexivity).
  split; [exact Hload |]. split; [exact Hrepos |]. split; [exact Hne |].
  split; [exact Hrecs |].
  exact (Github_lists_sorted_repositories s [a; b] Hload Hrepos Hne Hrecs).
Defined.

(** X12: an error response whose [message] is present but falsy, such as
    an empty string, is not displayed as an error: for the current
    request, with no results stored, the message becomes the error and the
    component shows "No repositories found". *)
Theorem error_without_message_is_not_shown
    (w : widget) (i : nat) (r : listener_run) (status : Z) (json m : jsval) :
  runs w !! i = Some r → at_stage r = Fetching → ¬ superseded w r →
  repositories (store w) = JArr [] →
  status ≠ 200 → get_property json "message" = inr m →
  m ≠ JUndefined → truthy m = false →
  let w' := exec [FetchResolves i status (Some json); JsonSettles i] w in
  error (store w') = m ∧ isLoading (store w') = false ∧
  Github (store w') =
    Some {| input_value := username (store w); body := ShowNoRepositories |}.
Proof.
  intros Hi Hst Hcur Hrepos Hne Hm Hdef Hfalsy w'.
  destruct (current_response_settles w i r status json Hi Hst Hcur)
    as (_ & Herr & _).
  destruct (Herr Hne m Hm Hdef) as [Hstore _]. unfold w'. rewrite Hstore.
  split; [done |]. split; [done |].
  unfold Github, sortedRepositories_value. simpl.
  rewrite Hrepos. simpl. by rewrite Hfalsy.
Qed.

Lemma error_without_message_is_not_shown_witness :
  let w := exec [Elapse 300] mounted in
  let r := {| payload := "keajs"; breakCounter := 1; at_stage := Fetching |} in
  let json := JObj [("message", JStr "")] in
  runs w !! 0%nat = Some r ∧ at_stage r = Fetching ∧ ¬ superseded w r ∧
  repositories (store w) = JArr [] ∧ 500 ≠ 200 ∧
  get_property json "message" = inr (JStr "") ∧
  JStr "" ≠ JUndefined ∧ truthy (JStr "") = false ∧
  Github (store (exec [FetchResolves 0 500 (Some json); JsonSettles 0] w)) =
    Some {| input_value := "keajs"; body := ShowNoRepositories |}.
Proof.
  intros w r json.
  assert (runs w !! 0%nat = Some r) as Hi by reflexivity.
  assert (at_stage r = Fetching) as Hst by reflexivity.
  assert (¬ superseded w r) as Hcur by (intros Hs; apply Hs; reflexivity).
  assert (repositories (store w) = JArr []) as Hrepos by reflexivity.
  assert (500 ≠ 200) as Hne by lia.
  assert (get_property json "message" = inr (JStr "")) as Hm by reflexivity.
  assert (JStr "" ≠ JUndefined) as Hdef by discriminate.
  assert (truthy (JStr "") = false) as Hfalsy by reflexivity.
  split; [exact Hi |]. split; [exact Hst |]. split; [exact Hcur |].
  split; [exact Hrepos |]. split; [exact Hne |]. split; [exact Hm |].
  split; [exact Hdef |]. split; [exact Hfalsy |].
  exact (proj2 (proj2 (error_without_message_is_not_shown w 0 r 500 json (JStr "")
                  Hi Hst Hcur Hrepos Hne Hm Hdef Hfalsy))).
Defined.

(** ** The url of a request *)

Lemma string_length_app (s t : string) :
  String.length (s +:+ t) = (String.length s + String.length t)%nat.
Proof. induction s as [| c s IH]; simpl; [done | by rewrite IH]. Qed.

Lemma string_app_inv_tail (u v t : string) : u +:+ t = v +:+ t → u = v.
Proof.
  revert v. induction u as [| c u IH]; intros [| d v] Heq.
  - done.
  - apply (f_equal String.length) in Heq.
    rewrite !string_length_app in Heq. simpl in Heq. lia.
  - apply (f_equal String.length) in Heq.
    rewrite !string_length_app in Heq. simpl in Heq. lia.
  - injection Heq as -> Heq. f_equal. by apply IH.
Qed.

Lemma string_app_inv_head (s a b : string) : s +:+ a = s +:+ b → a = b.
Proof. induction s as [| c s IH]; [done |]. intros [= Heq]. by apply IH. Qed.

(** X13: different usernames are requested from different urls. *)
Theorem repos_url_distinct (u v : string) : u ≠ v → repos_url u ≠ repos_url v.
Proof.
  intros Hne Heq. apply Hne. unfold repos_url in Heq.
  do 2 apply string_app_inv_head in Heq.
  by apply string_app_inv_tail in Heq.
Qed.

Lemma repos_url_distinct_witness :
  "kea" ≠ "keajs" ∧ repos_url "kea" ≠ repos_url "keajs".
Proof.
  assert ("kea" ≠ "keajs") as Hne by discriminate.
  split; [exact Hne |]. exact (repos_url_distinct "kea" "keajs" Hne).
Defined.
